(** * RealBasicVSRNet: the control flow of the cleaning loop, verified

    A shallow embedding of [realbasicvsr/models/backbones/real_basicvsr_net.py].

    The file owns three things: the constructor, which configures two
    sub-networks and freezes some of their parameters; [forward], which
    cleans a clip in at most three passes and hands it to BasicVSR; and
    [init_weights].  The networks themselves (mmedit's
    [ResidualBlocksWithInputConv], [BasicVSRNet], torch's [Conv2d]) and
    mmcv's [load_checkpoint] are not part of the file: they are section
    variables here.

    Tensors hold rationals: [Q] stands for the reals that float32
    approximates, and the one float value the control flow can observe, the
    NaN that [torch.mean] gives on an empty tensor, is kept as [None].
    Storages are contiguous and row-major, so a [view] fails for its size
    only; broadcasting is left out (see [iadd_select1]).  A tensor object
    is a handle into a heap of storages, which is what makes the in-place
    update of the sequential strategy visible to the caller. *)

From Stdlib Require Import QArith Qabs ZArith List String Ascii Lia.
From stdpp Require Import base list.

Close Scope Q_scope.
Open Scope nat_scope.
Open Scope list_scope.

(* ===================================================================== *)
(** * Exceptions and results *)
(* ===================================================================== *)

(** What an external callee reports when it raises; its text is opaque. *)
Definition ext_exn := string.

Inductive exn :=
| ValueError (msg : string)    (* unpacking [lqs.size()] into five names *)
| RuntimeError (msg : string)  (* raised by a tensor operation *)
| TypeError (msg : string)     (* raised by [init_weights] itself *)
| Propagated (e : ext_exn).    (* escaped from a network or the loader *)

Definition result (A : Type) : Type := exn + A.
Definition Ok {A} (a : A) : result A := inr a.
Definition Err {A} (e : exn) : result A := inl e.

Definition ext_result (A : Type) : Type := ext_exn + A.

Definition propagate {A} (r : ext_result A) : result A :=
  match r with
  | inl e => Err (Propagated e)
  | inr a => Ok a
  end.

Definition is_ok {A} (r : result A) : bool :=
  match r with inr _ => true | inl _ => false end.

(* ===================================================================== *)
(** * Tensors as values *)
(* ===================================================================== *)

(** A contiguous tensor: its size and its elements in row-major order. *)
Record tensor := { shape : list nat; data : list Q }.

Definition numel (s : list nat) : nat := fold_right Nat.mul 1 s.

Definition well_formed (x : tensor) : Prop :=
  length (data x) = numel (shape x).

(** [chunks k m l]: the first [m] consecutive blocks of [k] elements. *)
Fixpoint chunks {A} (k m : nat) (l : list A) : list (list A) :=
  match m with
  | 0 => []
  | S m' => take k l :: chunks k m' (drop k l)
  end.

Definition add_elems (a b : list Q) : list Q := zip_with Qplus a b.

(** [x[:, i]] read: frame [i] of every batch row. *)
Definition select1 (x : tensor) (i : nat) : result tensor :=
  match shape x with
  | n :: t :: rest =>
      if decide (i < t) then
        let k := numel rest in
        Ok {| shape := n :: rest;
              data := concat (map (fun row => nth i (chunks k t row) [])
                                  (chunks (t * k) n (data x))) |}
      else Err (RuntimeError "index out of range")
  | _ => Err (RuntimeError "too many indices")
  end.

(** [x[:, i] += r]: the new contents of [x].  The residue comes from a
    network that ends in [Conv2d(mid_channels, 3, 3, 1, 1)] and so has the
    size of the frame; broadcasting of other sizes is not modelled, they
    are reported as the size mismatch. *)
Definition iadd_select1 (x : tensor) (i : nat) (r : tensor) : result tensor :=
  match shape x with
  | n :: t :: rest =>
      if decide (i < t) then
        if decide (shape r = n :: rest) then
          let k := numel rest in
          Ok {| shape := shape x;
                data := concat
                  (zip_with (fun row rb =>
                               concat (alter (fun b => add_elems b rb) i
                                             (chunks k t row)))
                            (chunks (t * k) n (data x))
                            (chunks k n (data r))) |}
        else Err (RuntimeError "size mismatch")
      else Err (RuntimeError "index out of range")
  | _ => Err (RuntimeError "too many indices")
  end.

(** [x + r], sizes equal (see [iadd_select1] on broadcasting). *)
Definition torch_add (x r : tensor) : result tensor :=
  if decide (shape r = shape x) then
    Ok {| shape := shape x; data := add_elems (data x) (data r) |}
  else Err (RuntimeError "size mismatch").

(** [torch.stack(rs, dim=1)]. *)
Definition torch_stack1 (rs : list tensor) : result tensor :=
  match rs with
  | [] => Err (RuntimeError "stack expects a non-empty TensorList")
  | r0 :: _ =>
      if forallb (fun r => bool_decide (shape r = shape r0)) rs then
        match shape r0 with
        | n :: rest =>
            let k := numel rest in
            Ok {| shape := n :: length rs :: rest;
                  data := concat
                    (map (fun j => concat (map (fun r => nth j (chunks k n (data r)) []) rs))
                         (seq 0 n)) |}
        | [] => Err (RuntimeError "dimension out of range")
        end
      else Err (RuntimeError "stack expects each tensor to be equal size")
  end.

(** The size a [view] produces: at most one entry is [-1] and is inferred
    from the number of elements. *)
Definition known_numel (size : list Z) : nat :=
  numel (map Z.to_nat (filter (fun d => d ≠ (-1)%Z) size)).

Definition view_size (s : list nat) (size : list Z) : result (list nat) :=
  if existsb (fun d => (d <? -1)%Z) size then
    Err (RuntimeError "invalid shape dimension")
  else
    let known := known_numel size in
    match length (filter (fun d => d = (-1)%Z) size) with
    | 0 =>
        if decide (numel s = known) then Ok (map Z.to_nat size)
        else Err (RuntimeError "shape is invalid for input size")
    | 1 =>
        if decide (known = 0) then
          Err (RuntimeError "the unspecified dimension size -1 can be any value and is ambiguous")
        else if decide (numel s mod known = 0) then
          Ok (map (fun d => if decide (d = (-1)%Z) then numel s / known else Z.to_nat d) size)
        else Err (RuntimeError "shape is invalid for input size")
    | _ => Err (RuntimeError "only one dimension can be inferred")
    end.

(** [torch.mean(torch.abs(r))]; [None] is NaN, the mean of no element. *)
Definition sumQ (l : list Q) : Q := fold_right Qplus 0%Q l.

Definition mean_abs (r : tensor) : option Q :=
  match data r with
  | [] => None
  | _ => Some (sumQ (map Qabs (data r)) / inject_Z (Z.of_nat (length (data r))))%Q
  end.

Definition Qltb (x y : Q) : bool := negb (Qle_bool y x).

(** [m < thres] as the [if] sees it: a comparison with NaN is false. *)
Definition below (m : option Q) (thres : Q) : bool :=
  match m with
  | Some q => Qltb q thres
  | None => false
  end.

(* ===================================================================== *)
(** * Tensors as objects: storage, aliasing, in-place update *)
(* ===================================================================== *)

(** A [torch.Tensor] object is a handle on a storage.  The caller of
    [forward] keeps its handle, so what [forward] writes through [lqs] is
    seen by the caller.  [passes] is a ghost counter: the number of times
    the body of the cleaning loop was entered. *)
Record Tensor := { storage : nat; size : list nat }.

Record state := { mem : list (list Q); passes : nat }.

Definition M (A : Type) : Type := state -> state * result A.

Definition ret {A} (a : A) : M A := fun s => (s, Ok a).
Definition raise {A} (e : exn) : M A := fun s => (s, Err e).
Definition bind {A B} (m : M A) (k : A -> M B) : M B :=
  fun s => match m s with
           | (s', inr a) => k a s'
           | (s', inl e) => (s', inl e)
           end.
Definition lift {A} (r : result A) : M A := fun s => (s, r).

Notation "x <- m ;; k" := (bind m (fun x => k))
  (at level 20, m at level 99, k at level 200, only parsing).
Notation "' p <- m ;; k" := (bind m (fun p => k))
  (at level 20, p pattern, m at level 99, k at level 200, only parsing).
Notation "m ;;; k" := (bind m (fun _ => k))
  (at level 20, k at level 200, only parsing).

Definition load (x : Tensor) : M tensor :=
  fun s => match mem s !! storage x with
           | Some d => (s, Ok {| shape := size x; data := d |})
           | None => (s, Err (RuntimeError "no such storage"))
           end.

Definition store (x : Tensor) (d : list Q) : M unit :=
  fun s => ({| mem := <[storage x := d]> (mem s); passes := passes s |}, Ok tt).

Definition alloc (v : tensor) : M Tensor :=
  fun s => ({| mem := mem s ++ [data v]; passes := passes s |},
            Ok {| storage := length (mem s); size := shape v |}).

Definition tick : M unit :=
  fun s => ({| mem := mem s; passes := S (passes s) |}, Ok tt).

(** [x.view(size)]: a new handle on the storage of [x]. *)
Definition view (x : Tensor) (sz : list Z) : M Tensor :=
  s <- lift (view_size (size x) sz) ;;
  ret {| storage := storage x; size := s |}.

(** [n, t, c, h, w = lqs.size()] *)
Definition size5 (x : Tensor) : M (nat * nat * nat * nat * nat) :=
  match size x with
  | [n; t; c; h; w] => ret (n, t, c, h, w)
  | _ => raise (ValueError "cannot unpack the size into 5 values")
  end.

(* ===================================================================== *)
(** * Modules and their parameters *)
(* ===================================================================== *)

Record Param := { p_name : string; p_data : tensor; requires_grad : bool }.

(** An [nn.Module], seen through its named parameters. *)
Definition Module := list Param.

(** [nn.Parameter(data)]: trainable unless told otherwise. *)
Definition nn_Parameter (name : string) (d : tensor) : Param :=
  {| p_name := name; p_data := d; requires_grad := true |}.

Definition requires_grad_ (b : bool) (m : Module) : Module :=
  map (fun p => {| p_name := p_name p; p_data := p_data p; requires_grad := b |}) m.

(** What the forward pass of a module reads: names and values. *)
Definition state_dict (m : Module) : list (string * tensor) :=
  map (fun p => (p_name p, p_data p)) m.

Definition prefixed (pre : string) (ps : list (string * tensor)) : Module :=
  map (fun p => nn_Parameter (pre ++ fst p) (snd p)) ps.

Definition conv_params (wb : tensor * tensor) : list (string * tensor) :=
  [("weight"%string, fst wb); ("bias"%string, snd wb)].

Record BasicVSRNet := { spynet : Module; propagation : Module }.

Record RealBasicVSRNet := {
  dynamic_refine_thres : Q;
  is_sequential_cleaning : bool;
  image_cleaning : Module;
  basicvsr : BasicVSRNet
}.

(** What a Python function hands back to its caller. *)
Inductive retval :=
| RNone
| RTensor (outputs : tensor)
| RTuple (outputs : tensor) (lqs : Tensor).

(** Python values [init_weights] may receive as [pretrained]. *)
Inductive pyobj :=
| PyNone
| PyStr (s : string)
| PyStrSub (cls : string) (s : string)   (* instance of a subclass of str *)
| PyBool (b : bool)
| PyInt (z : Z)
| PyFloat (q : Q)
| PyBytes (b : list ascii)
| PyInstance (cls : string).              (* instance of any other class *)

Definition isinstance_str (o : pyobj) : bool :=
  match o with
  | PyStr _ | PyStrSub _ _ => true
  | _ => false
  end.

Definition is_None (o : pyobj) : bool :=
  match o with PyNone => true | _ => false end.

Definition str_value (o : pyobj) : string :=
  match o with
  | PyStr s | PyStrSub _ s => s
  | _ => EmptyString
  end.

Definition class_name (o : pyobj) : string :=
  match o with
  | PyNone => "NoneType"
  | PyStr _ => "str"
  | PyStrSub cls _ => cls
  | PyBool _ => "bool"
  | PyInt _ => "int"
  | PyFloat _ => "float"
  | PyBytes _ => "bytes"
  | PyInstance cls => cls
  end.

(** [f'{type(o)}'] *)
Definition type_repr (o : pyobj) : string :=
  "<class '" ++ class_name o ++ "'>".

Definition dquote : string := String "034"%char EmptyString.

Definition pretrained_type_message (o : pyobj) : string :=
  dquote ++ "pretrained" ++ dquote ++ " must be a str or None. " ++
  "But received " ++ type_repr o ++ ".".

(* ===================================================================== *)
(** * The network *)
(* ===================================================================== *)

Section RealBasicVSRNet.

(** ** External collaborators *)

(** [ResidualBlocksWithInputConv(in, out, blocks)]: the freshly initialised
    weights, by name; [nn.Conv2d(in, out, 3, 1, 1, bias=True)]: its weight
    and its bias. *)
Variable ResidualBlocksWithInputConv : nat -> nat -> nat -> list (string * tensor).
Variable Conv2d : nat -> nat -> tensor * tensor.

(** [BasicVSRNet(mid_channels, num_blocks, spynet_pretrained)]; loading
    the SPyNet checkpoint may raise. *)
Variable BasicVSRNet_new : nat -> nat -> option string -> ext_result BasicVSRNet.

(** What the two networks compute from their weights. *)
Variable Sequential_forward : list (string * tensor) -> tensor -> ext_result tensor.
Variable BasicVSRNet_forward :
  list (string * tensor) -> list (string * tensor) -> tensor -> ext_result tensor.

(** [load_checkpoint(model, filename, strict, logger)] *)
Variable load_checkpoint : RealBasicVSRNet -> string -> bool -> ext_result RealBasicVSRNet.

(** ** [__init__] *)

Definition __init__ (mid_channels num_propagation_blocks num_cleaning_blocks : nat)
    (dynamic_refine_thres : Z) (spynet_pretrained : option string)
    (is_fix_cleaning is_sequential_cleaning : bool) : result RealBasicVSRNet :=
  let thres := (inject_Z dynamic_refine_thres / 255)%Q in
  (* image cleaning module *)
  let image_cleaning :=
    prefixed "0." (ResidualBlocksWithInputConv 3 mid_channels num_cleaning_blocks)
    ++ prefixed "1." (conv_params (Conv2d mid_channels 3)) in
  let image_cleaning :=
    if is_fix_cleaning then requires_grad_ false image_cleaning
    else image_cleaning in
  (* BasicVSR *)
  match propagate (BasicVSRNet_new mid_channels num_propagation_blocks spynet_pretrained) with
  | inl e => Err e
  | inr net =>
      Ok {| dynamic_refine_thres := thres;
            is_sequential_cleaning := is_sequential_cleaning;
            image_cleaning := image_cleaning;
            basicvsr := {| spynet := requires_grad_ false (spynet net);
                           propagation := propagation net |} |}
  end.

(** ** [forward] *)

(** [self.image_cleaning(x)] and [self.basicvsr(x)] *)
Definition call_image_cleaning (self : RealBasicVSRNet) (x : tensor) : M tensor :=
  lift (propagate (Sequential_forward (state_dict (image_cleaning self)) x)).

Definition call_basicvsr (self : RealBasicVSRNet) (x : tensor) : M tensor :=
  lift (propagate (BasicVSRNet_forward (state_dict (spynet (basicvsr self)))
                                        (state_dict (propagation (basicvsr self))) x)).

(** The body of [for i in range(0, t)], over the indices still to come. *)
Fixpoint clean_frames (self : RealBasicVSRNet) (lqs : Tensor)
    (frames : list nat) (residues : list tensor) : M (list tensor) :=
  match frames with
  | [] => ret residues
  | i :: frames' =>
      cur <- load lqs ;;
      frame <- lift (select1 cur i) ;;
      residue_i <- call_image_cleaning self frame ;;
      cur <- load lqs ;;
      upd <- lift (iadd_select1 cur i residue_i) ;;
      store lqs (data upd) ;;;
      clean_frames self lqs frames' (residues ++ [residue_i])
  end.

Definition sequential_pass (self : RealBasicVSRNet) (lqs : Tensor) (t : nat)
    : M (Tensor * tensor) :=
  residues <- clean_frames self lqs (seq 0 t) [] ;;
  residues <- lift (torch_stack1 residues) ;;
  ret (lqs, residues).

(** time -> batch, then apply cleaning at once *)
Definition batched_pass (self : RealBasicVSRNet) (lqs : Tensor) (n t c h w : nat)
    : M (Tensor * tensor) :=
  lqs <- view lqs [(-1)%Z; Z.of_nat c; Z.of_nat h; Z.of_nat w] ;;
  x <- load lqs ;;
  residues <- call_image_cleaning self x ;;
  sum <- lift (torch_add x residues) ;;
  sum <- alloc sum ;;
  lqs <- view sum [Z.of_nat n; Z.of_nat t; Z.of_nat c; Z.of_nat h; Z.of_nat w] ;;
  ret (lqs, residues).

Definition cleaning_pass (self : RealBasicVSRNet) (lqs : Tensor) (n t c h w : nat)
    : M (Tensor * tensor) :=
  if is_sequential_cleaning self then sequential_pass self lqs t
  else batched_pass self lqs n t c h w.

(** [for _ in range(0, 3)], over the iterations still to come. *)
Fixpoint cleaning_loop (self : RealBasicVSRNet) (n t c h w : nat)
    (iterations : list nat) (lqs : Tensor) : M Tensor :=
  match iterations with
  | [] => ret lqs
  | _ :: iterations' =>
      tick ;;;
      '(lqs, residues) <- cleaning_pass self lqs n t c h w ;;
      (* determine whether to continue cleaning *)
      if below (mean_abs residues) (dynamic_refine_thres self) then ret lqs
      else cleaning_loop self n t c h w iterations' lqs
  end.

(** [forward] up to the call of BasicVSR: the handle of the cleaned clip. *)
Definition clean (self : RealBasicVSRNet) (lqs : Tensor) : M Tensor :=
  '(n, t, c, h, w) <- size5 lqs ;;
  cleaning_loop self n t c h w (seq 0 3) lqs.

Definition forward (self : RealBasicVSRNet) (lqs : Tensor) (return_lqs : bool)
    : M retval :=
  lqs <- clean self lqs ;;
  (* Super-resolution (BasicVSR) *)
  x <- load lqs ;;
  outputs <- call_basicvsr self x ;;
  if return_lqs then
    (* [outputs, lqs] is an expression statement: the tuple is built
       and dropped, and the function ends without a [return] *)
    ret RNone
  else ret (RTensor outputs).

(** ** [init_weights] *)

Definition init_weights (self : RealBasicVSRNet) (pretrained : pyobj) (strict : bool)
    : result RealBasicVSRNet :=
  if isinstance_str pretrained then
    propagate (load_checkpoint self (str_value pretrained) strict)
  else if negb (is_None pretrained) then
    Err (TypeError (pretrained_type_message pretrained))
  else Ok self.

End RealBasicVSRNet.

(* ===================================================================== *)
(** * A small concrete network *)
(* ===================================================================== *)

(** Stand-ins for the external networks, used to run the code: the cleaning
    network answers the residue [-x/2] for every element [x], and the
    super-resolution network a constant clip of four times the height and
    width.  Neither reads its weights. *)
Module Demo.

Definition halve_neg (q : Q) : Q := (- q / 2)%Q.

Definition cleaning_net (_ : list (string * tensor)) (x : tensor) : ext_result tensor :=
  inr {| shape := shape x; data := map halve_neg (data x) |}.

Definition upscale_size (s : list nat) : list nat :=
  match s with
  | [n; t; c; h; w] => [n; t; c; 4 * h; 4 * w]
  | _ => s
  end.

Definition sr_net (_ _ : list (string * tensor)) (x : tensor) : ext_result tensor :=
  inr {| shape := upscale_size (shape x);
         data := repeat (sumQ (data x)) (numel (upscale_size (shape x))) |}.

Definition scalar (q : Q) : tensor := {| shape := []; data := [q] |}.

Definition residual_blocks (_ _ _ : nat) : list (string * tensor) :=
  [("main.0.weight"%string, scalar 1); ("main.0.bias"%string, scalar 0)].

Definition conv2d (_ _ : nat) : tensor * tensor := (scalar 1, scalar 0).

Definition basicvsr_new (_ _ : nat) (_ : option string) : ext_result BasicVSRNet :=
  inr {| spynet := [nn_Parameter "basic_module.0.weight" (scalar 1)];
         propagation := [nn_Parameter "conv_last.weight" (scalar 1)] |}.

(** A checkpoint loader that finds no file. *)
Definition loader (_ : RealBasicVSRNet) (path : string) (_ : bool)
    : ext_result RealBasicVSRNet := inl ("No such file: " ++ path)%string.

(** A network with the given threshold (on the 0-255 scale) and strategy. *)
Definition net (thres : Z) (sequential : bool) : RealBasicVSRNet :=
  {| dynamic_refine_thres := (inject_Z thres / 255)%Q;
     is_sequential_cleaning := sequential;
     image_cleaning := prefixed "0." (residual_blocks 3 64 20) ++ prefixed "1." (conv_params (conv2d 64 3));
     basicvsr := {| spynet := requires_grad_ false [nn_Parameter "basic_module.0.weight" (scalar 1)];
                    propagation := [nn_Parameter "conv_last.weight" (scalar 1)] |} |}.

(** A clip of one batch entry and two frames of one pixel each, held in
    storage 0, and a clip without frames. *)
Definition clip : Tensor := {| storage := 0; size := [1; 2; 1; 1; 1] |}.
Definition heap : state := {| mem := [[1%Q; 3%Q]]; passes := 0 |}.

Definition empty_clip : Tensor := {| storage := 0; size := [1; 0; 3; 1; 1] |}.
Definition empty_heap : state := {| mem := [[]]; passes := 0 |}.

Definition run_forward (thres : Z) (sequential : bool) (lqs : Tensor)
    (return_lqs : bool) : M retval :=
  forward cleaning_net sr_net (net thres sequential) lqs return_lqs.

(** What [__init__] gives with the stand-ins, and the frame function of
    [cleaning_net]. *)
Definition init (thres : Z) (is_fix_cleaning sequential : bool) : result RealBasicVSRNet :=
  __init__ residual_blocks conv2d basicvsr_new 64 20 20 thres None
           is_fix_cleaning sequential.

Definition frozen_net : RealBasicVSRNet :=
  {| dynamic_refine_thres := dynamic_refine_thres (net 255 false);
     is_sequential_cleaning := false;
     image_cleaning := requires_grad_ false (image_cleaning (net 255 false));
     basicvsr := basicvsr (net 255 false) |}.

Definition frame_fn (_ : list nat) (b : list Q) : list Q := map halve_neg b.

(** The clip [run_forward 255 _ clip false heap] returns. *)
Definition outputs : tensor :=
  {| shape := [1; 2; 1; 4; 4]; data := repeat (64 # 64)%Q 32 |}.

(** A cleaning network that answers a zero residue; a single frame (four
    dimensions); a clip of frames of height zero. *)
Definition quiet_net (_ : list (string * tensor)) (x : tensor) : ext_result tensor :=
  inr {| shape := shape x; data := map (fun _ => 0%Q) (data x) |}.

Definition frame : Tensor := {| storage := 0; size := [1; 1; 1; 1] |}.

Definition blank_clip : Tensor := {| storage := 0; size := [1; 2; 3; 0; 4] |}.

End Demo.

(* ===================================================================== *)
(** * Vocabulary of the statements *)
(* ===================================================================== *)

(** A clip seen as a grid: one row per batch entry, one block of [k]
    elements per frame. *)
Definition to_grid (k t n : nat) (d : list Q) : list (list (list Q)) :=
  map (chunks k t) (chunks (t * k) n d).

Definition flat (g : list (list (list Q))) : list Q :=
  concat (map (fun row => concat row) g).

Definition grid_ok (k t n : nat) (g : list (list (list Q))) : Prop :=
  length g = n /\
  Forall (fun row => length row = t /\ Forall (fun b => length b = k) row) g.

(** The size of a frame: channels, height and width, none of them zero. *)
Definition image_size (fs : list nat) : Prop :=
  exists c h w, fs = [c; h; w] /\ 1 <= c /\ 1 <= h /\ 1 <= w.

(** The cleaning network works frame by frame: on a batch of frames of
    size [fs] it answers, for each frame [b], the residue [f fs b], of the
    size of the frame.  This is what convolutions and pointwise
    activations do along the batch axis. *)
Definition frame_wise (f : list nat -> list Q -> list Q)
    (net : tensor -> ext_result tensor) : Prop :=
  (forall fs b, image_size fs -> length b = numel fs -> length (f fs b) = numel fs) /\
  (forall x n fs, image_size fs -> shape x = n :: fs -> well_formed x ->
     net x = inr {| shape := shape x;
                    data := concat (map (f fs) (chunks (numel fs) n (data x))) |}).

(** Modelled from the spec: mmedit's [BasicVSRNet] is not under src/.  The
    spec gives its contract: it "accepts a cleaned clip, returns an
    upscaled clip, fixed at 4x spatial scale". *)
Definition upscales_4x
    (net : list (string * tensor) -> list (string * tensor) -> tensor -> ext_result tensor)
    : Prop :=
  forall ws1 ws2 x y n t c h w,
    shape x = [n; t; c; h; w] -> net ws1 ws2 x = inr y ->
    shape y = [n; t; c; 4 * h; 4 * w].

(** Two handles, each in its own state, on clips of the same size and
    contents. *)
Definition same_clip (s : state) (x : Tensor) (s' : state) (x' : Tensor) : Prop :=
  size x = size x' /\ mem s !! storage x = mem s' !! storage x'.

(** Every storage of [s] is in [s'] with the contents it had. *)
Definition untouched (s s' : state) : Prop :=
  exists more, mem s' = mem s ++ more.

(** [s'] differs from [s] in the contents of storage [l] at most. *)
Definition touches_only (l : nat) (s s' : state) : Prop :=
  length (mem s') = length (mem s) /\
  forall l', l' <> l -> mem s' !! l' = mem s !! l'.

(** Frame [i] of every row of a grid. *)
Definition frames_at (i : nat) (g : list (list (list Q))) : list (list Q) :=
  map (fun row => nth i row []) g.

(** A row whose first [i] frames have been cleaned by [G]. *)
Definition done_upto (G : list Q -> list Q) (i : nat) (row : list (list Q)) : list (list Q) :=
  map G (take i row) ++ drop i row.

(** A frame plus its residue. *)
Definition cleaned_frame (f : list Q -> list Q) (b : list Q) : list Q :=
  add_elems b (f b).

(** The residue the network gives for frame [i] of a clip. *)
Definition residue_at (f : list nat -> list Q -> list Q) (n : nat) (fs : list nat)
    (g : list (list (list Q))) (i : nat) : tensor :=
  {| shape := n :: fs; data := concat (map (f fs) (frames_at i g)) |}.

(** What one pass computes from the contents [d] of a clip of [n] rows of
    [t] frames of size [fs], when the network is [f] on every frame. *)
Definition pass_residue (f : list nat -> list Q -> list Q) (n t : nat) (fs : list nat)
    (d : list Q) : list Q :=
  concat (map (f fs) (concat (to_grid (numel fs) t n d))).

Definition pass_cleaned (f : list nat -> list Q -> list Q) (n t : nat) (fs : list nat)
    (d : list Q) : list Q :=
  concat (map (cleaned_frame (f fs)) (concat (to_grid (numel fs) t n d))).

Definition frame_wise_net
    (Sequential_forward : list (string * tensor) -> tensor -> ext_result tensor)
    (f : list nat -> list Q -> list Q) (self : RealBasicVSRNet) : Prop :=
  frame_wise f (Sequential_forward (state_dict (image_cleaning self))).

(** A computation that leaves the ghost counter alone. *)
Definition keeps_passes {A} (m : M A) : Prop :=
  forall s, passes (fst (m s)) = passes s.

(** A computation whose final state is related to its initial state. *)
Definition changes_within {A} (R : state -> state -> Prop) (m : M A) : Prop :=
  forall s, R s (fst (m s)).

(** Two runs that end alike: both raise the same exception, or both
    return and their states and values are related by [post]. *)
Definition agree {A} (post : state -> A -> state -> A -> Prop)
    (r r' : state * result A) : Prop :=
  match r, r' with
  | (s1, inr a), (s1', inr a') => post s1 a s1' a'
  | (_, inl e), (_, inl e') => e = e'
  | _, _ => False
  end.

(** Both runs stay in their states and get the same value. *)
Definition same_value {A} (s s' : state) : state -> A -> state -> A -> Prop :=
  fun s1 a s1' a' => s1 = s /\ s1' = s' /\ a = a'.

(** Two passes that return the same residue and clips that are alike. *)
Definition same_pass : state -> Tensor * tensor -> state -> Tensor * tensor -> Prop :=
  fun s1 yr s1' yr' => snd yr = snd yr' /\ same_clip s1 (fst yr) s1' (fst yr').

(** The contents of the clip after the loop and the number of passes made,
    when the network is [f] on every frame: each pass works on the clip the
    pass before it left, and the loop stops after the first pass whose
    residue is small enough. *)
Fixpoint refined (f : list nat -> list Q -> list Q) (thres : Q) (n t : nat)
    (fs : list nat) (iterations : nat) (d : list Q) : list Q * nat :=
  match iterations with
  | 0 => (d, 0)
  | S k =>
      let r := {| shape := n :: t :: fs; data := pass_residue f n t fs d |} in
      let d' := pass_cleaned f n t fs d in
      if below (mean_abs r) thres then (d', 1)
      else (fst (refined f thres n t fs k d'), S (snd (refined f thres n t fs k d')))
  end.

(** The network that finds nothing to correct. *)
Definition no_residue (_ : list nat) (b : list Q) : list Q := map (fun _ => 0%Q) b.

(** Given a tensor that holds as many elements as its size says, the
    network returns such a tensor. *)
Definition returns_well_formed
    (net : list (string * tensor) -> tensor -> ext_result tensor) : Prop :=
  forall ws x y, well_formed x -> net ws x = inr y -> well_formed y.

(** Two networks with the same weights, threshold and strategy. *)
Definition same_weights (a b : RealBasicVSRNet) : Prop :=
  state_dict (image_cleaning a) = state_dict (image_cleaning b) /\
  state_dict (spynet (basicvsr a)) = state_dict (spynet (basicvsr b)) /\
  state_dict (propagation (basicvsr a)) = state_dict (propagation (basicvsr b)) /\
  dynamic_refine_thres a = dynamic_refine_thres b /\
  is_sequential_cleaning a = is_sequential_cleaning b.

(* ===================================================================== *)
(** * Properties *)
(* ===================================================================== *)

(** ** The tensor operations on small inputs *)

Example select1_second_frame :
  select1 {| shape := [2; 2; 1; 1; 1]; data := [1; 2; 3; 4]%Q |} 1
  = Ok {| shape := [2; 1; 1; 1]; data := [2; 4]%Q |}.
Proof. reflexivity. Qed.

Example iadd_select1_second_frame :
  iadd_select1 {| shape := [2; 2; 1; 1; 1]; data := [1; 2; 3; 4]%Q |} 1
               {| shape := [2; 1; 1; 1]; data := [10; 20]%Q |}
  = Ok {| shape := [2; 2; 1; 1; 1]; data := [1; 12; 3; 24]%Q |}.
Proof. reflexivity. Qed.

Example torch_stack1_two_frames :
  torch_stack1 [ {| shape := [2; 1; 1; 1]; data := [1; 2]%Q |};
                 {| shape := [2; 1; 1; 1]; data := [3; 4]%Q |} ]
  = Ok {| shape := [2; 2; 1; 1; 1]; data := [1; 3; 2; 4]%Q |}.
Proof. reflexivity. Qed.

Example view_size_time_to_batch :
  view_size [2; 5; 3; 4; 4] [-1; 3; 4; 4]%Z = Ok [10; 3; 4; 4].
Proof. reflexivity. Qed.

Example view_size_ambiguous :
  view_size [2; 5; 3; 0; 4] [-1; 3; 0; 4]%Z
  = Err (RuntimeError "the unspecified dimension size -1 can be any value and is ambiguous").
Proof. reflexivity. Qed.

Example mean_abs_of_nothing : mean_abs {| shape := [1; 0; 3; 1; 1]; data := [] |} = None.
Proof. reflexivity. Qed.

Example below_nan thres : below None thres = false.
Proof. reflexivity. Qed.

(** ** The state monad *)

Lemma bind_ok {A B} (m : M A) (k : A -> M B) s s' a :
  m s = (s', inr a) -> bind m k s = k a s'.
Proof. intros H. unfold bind. now rewrite H. Qed.

Lemma bind_inv_ok {A B} (m : M A) (k : A -> M B) s s2 b :
  bind m k s = (s2, inr b) ->
  exists s1 a, m s = (s1, inr a) /\ k a s1 = (s2, inr b).
Proof.
  unfold bind. destruct (m s) as [s1 [e|a]]; intros H.
  - discriminate.
  - eauto.
Qed.

Lemma keeps_ret {A} (a : A) : keeps_passes (ret a).
Proof. now intros s. Qed.

Lemma keeps_raise {A} e : keeps_passes (@raise A e).
Proof. now intros s. Qed.

Lemma keeps_lift {A} (r : result A) : keeps_passes (lift r).
Proof. now intros s. Qed.

Lemma keeps_load x : keeps_passes (load x).
Proof. intros s. unfold load. now destruct (mem s !! storage x). Qed.

Lemma keeps_store x d : keeps_passes (store x d).
Proof. now intros s. Qed.

Lemma keeps_alloc v : keeps_passes (alloc v).
Proof. now intros s. Qed.

Lemma keeps_bind {A B} (m : M A) (k : A -> M B) :
  keeps_passes m -> (forall a, keeps_passes (k a)) -> keeps_passes (bind m k).
Proof.
  intros Hm Hk s. unfold bind. specialize (Hm s).
  destruct (m s) as [s1 [e|a]]; simpl in *.
  - exact Hm.
  - now rewrite Hk.
Qed.

Lemma keeps_view x sz : keeps_passes (view x sz).
Proof. apply keeps_bind; [apply keeps_lift | intros; apply keeps_ret]. Qed.

Lemma keeps_size5 x : keeps_passes (size5 x).
Proof.
  unfold size5.
  destruct (size x) as [|n [|t [|c [|h [|w [|]]]]]];
    first [apply keeps_ret | apply keeps_raise].
Qed.

Create HintDb keeps.
#[global] Hint Resolve keeps_ret keeps_raise keeps_lift keeps_load keeps_store
  keeps_alloc keeps_view keeps_size5 : keeps.

Ltac keeps_tac :=
  repeat first
    [ progress auto with keeps
    | apply keeps_bind
    | intros ? ].

(** ** The cleaning loop *)

Section Loop.

Variable Sequential_forward : list (string * tensor) -> tensor -> ext_result tensor.
Variable BasicVSRNet_forward :
  list (string * tensor) -> list (string * tensor) -> tensor -> ext_result tensor.

Local Abbreviation clean_frames := (clean_frames Sequential_forward).
Local Abbreviation sequential_pass := (sequential_pass Sequential_forward).
Local Abbreviation batched_pass := (batched_pass Sequential_forward).
Local Abbreviation cleaning_pass := (cleaning_pass Sequential_forward).
Local Abbreviation cleaning_loop := (cleaning_loop Sequential_forward).
Local Abbreviation clean := (clean Sequential_forward).
Local Abbreviation forward := (forward Sequential_forward BasicVSRNet_forward).

Lemma keeps_call_image_cleaning self x :
  keeps_passes (call_image_cleaning Sequential_forward self x).
Proof. apply keeps_lift. Qed.

Lemma keeps_call_basicvsr self x :
  keeps_passes (call_basicvsr BasicVSRNet_forward self x).
Proof. apply keeps_lift. Qed.

Hint Resolve keeps_call_image_cleaning keeps_call_basicvsr : keeps.

Lemma keeps_clean_frames self lqs frames residues :
  keeps_passes (clean_frames self lqs frames residues).
Proof.
  revert residues. induction frames as [|i frames IH]; intros residues; simpl.
  - apply keeps_ret.
  - keeps_tac.
Qed.

Lemma keeps_cleaning_pass self lqs n t c h w :
  keeps_passes (cleaning_pass self lqs n t c h w).
Proof.
  unfold cleaning_pass, sequential_pass, batched_pass.
  destruct (is_sequential_cleaning self).
  - apply keeps_bind; [apply keeps_clean_frames | keeps_tac].
  - keeps_tac.
Qed.

(** One iteration, unfolded: the counter is bumped, the pass runs, and
    the residue decides. *)
Lemma cleaning_loop_step self n t c h w i iterations lqs s :
  cleaning_loop self n t c h w (i :: iterations) lqs s =
  match cleaning_pass self lqs n t c h w (fst (tick s)) with
  | (s1, inl e) => (s1, inl e)
  | (s1, inr (lqs1, residues)) =>
      if below (mean_abs residues) (dynamic_refine_thres self) then (s1, Ok lqs1)
      else cleaning_loop self n t c h w iterations lqs1 s1
  end.
Proof.
  simpl. unfold bind at 1. simpl. unfold bind at 1.
  destruct (cleaning_pass self lqs n t c h w _) as [s1 [e|[lqs1 residues]]]; try reflexivity.
  now destruct (below _ _).
Qed.

Lemma cleaning_loop_passes self n t c h w iterations lqs s :
  let s' := fst (cleaning_loop self n t c h w iterations lqs s) in
  passes s + min 1 (length iterations) <= passes s' /\
  passes s' <= passes s + length iterations.
Proof.
  revert lqs s. induction iterations as [|i iterations IH]; intros lqs s.
  - simpl. lia.
  - cbv zeta. rewrite cleaning_loop_step.
    pose proof (keeps_cleaning_pass self lqs n t c h w (fst (tick s))) as Hk.
    destruct (cleaning_pass self lqs n t c h w _) as [s1 [e|[lqs1 residues]]];
      simpl in Hk |- *; try lia.
    destruct (below _ _); simpl; try lia.
    specialize (IH lqs1 s1). cbv zeta in IH. lia.
Qed.

Lemma forward_passes self lqs return_lqs s :
  passes (fst (forward self lqs return_lqs s)) = passes (fst (clean self lqs s)).
Proof.
  unfold forward. unfold bind at 1.
  destruct (clean self lqs s) as [s1 [e|lqs1]]; [reflexivity|].
  simpl. apply (keeps_bind (load lqs1)); [apply keeps_load|].
  intros x. apply keeps_bind; [apply keeps_call_basicvsr|].
  intros o. destruct return_lqs; apply keeps_ret.
Qed.

Lemma clean_unfold self lqs n t c h w s :
  size lqs = [n; t; c; h; w] ->
  clean self lqs s = cleaning_loop self n t c h w (seq 0 3) lqs s.
Proof. intros H. unfold clean, size5. now rewrite H. Qed.

(** C3: on a clip (a tensor with five dimensions) the body of the
    refinement loop of [forward] is entered at least once and at most
    three times, whatever the strategy and whether or not a pass raises. *)
Theorem refinement_runs_1_to_3_passes self lqs return_lqs n t c h w s :
  size lqs = [n; t; c; h; w] ->
  passes s + 1 <= passes (fst (forward self lqs return_lqs s)) <= passes s + 3.
Proof.
  intros Hsize. rewrite forward_passes, (clean_unfold _ _ _ _ _ _ _ _ Hsize).
  pose proof (cleaning_loop_passes self n t c h w (seq 0 3) lqs s) as H.
  cbv zeta in H.
  change (min 1 (length (seq 0 3))) with 1 in H.
  change (length (seq 0 3)) with 3 in H. lia.
Qed.


(** ** A threshold of zero *)

Lemma sumQ_abs_nonneg (d : list Q) : (0 <= sumQ (map Qabs d))%Q.
Proof.
  induction d as [|q d IH]; simpl.
  - apply Qle_refl.
  - change 0%Q with (0 + 0)%Q. apply Qplus_le_compat; [apply Qabs_nonneg | exact IH].
Qed.

Lemma mean_abs_nonneg r m : mean_abs r = Some m -> (0 <= m)%Q.
Proof.
  unfold mean_abs. destruct (data r) as [|q d] eqn:E; [discriminate|].
  intros [= <-]. unfold Qdiv. apply Qmult_le_0_compat.
  - apply (sumQ_abs_nonneg (q :: d)).
  - apply Qinv_le_0_compat. unfold Qle. simpl. lia.
Qed.

Lemma never_below_zero r : below (mean_abs r) (inject_Z 0 / 255)%Q = false.
Proof.
  destruct (mean_abs r) as [m|] eqn:E; [|reflexivity].
  simpl. unfold Qltb.
  assert (H : Qle_bool (inject_Z 0 / 255)%Q m = true); [|now rewrite H].
  apply Qle_bool_iff. apply Qle_trans with 0%Q.
  - unfold Qle. simpl. lia.
  - eapply mean_abs_nonneg; eassumption.
Qed.

Lemma cleaning_loop_no_exit self n t c h w iterations lqs s :
  (forall r, below (mean_abs r) (dynamic_refine_thres self) = false) ->
  is_ok (snd (cleaning_loop self n t c h w iterations lqs s)) = true ->
  passes (fst (cleaning_loop self n t c h w iterations lqs s)) = passes s + length iterations.
Proof.
  intros Hnever. revert lqs s.
  induction iterations as [|i iterations IH]; intros lqs s.
  - simpl. lia.
  - rewrite cleaning_loop_step.
    pose proof (keeps_cleaning_pass self lqs n t c h w (fst (tick s))) as Hk.
    destruct (cleaning_pass self lqs n t c h w _) as [s1 [e|[lqs1 residues]]];
      simpl in Hk |- *; [discriminate|].
    rewrite Hnever. intros Hok. rewrite (IH _ _ Hok). simpl. lia.
Qed.

Variable ResidualBlocksWithInputConv : nat -> nat -> nat -> list (string * tensor).
Variable Conv2d : nat -> nat -> tensor * tensor.
Variable BasicVSRNet_new : nat -> nat -> option string -> ext_result BasicVSRNet.

Local Abbreviation __init__ := (__init__ ResidualBlocksWithInputConv Conv2d BasicVSRNet_new).

Lemma init_threshold mid npb ncb thres sp fx sq self :
  __init__ mid npb ncb thres sp fx sq = Ok self ->
  dynamic_refine_thres self = (inject_Z thres / 255)%Q.
Proof.
  unfold __init__. destruct (propagate _) as [e|net]; [discriminate|].
  now intros [= <-].
Qed.

(** C5: a network constructed with [dynamic_refine_thres = 0] never takes
    the early exit, whatever the residue, and so enters the loop body three
    times on every clip on which no pass raises. *)
Theorem zero_threshold_runs_all_3_passes
    mid npb ncb sp fx sq self lqs return_lqs n t c h w s :
  __init__ mid npb ncb 0 sp fx sq = Ok self ->
  size lqs = [n; t; c; h; w] ->
  (forall residues, below (mean_abs residues) (dynamic_refine_thres self) = false) /\
  (is_ok (snd (clean self lqs s)) = true ->
   passes (fst (forward self lqs return_lqs s)) = passes s + 3).
Proof.
  intros Hinit Hsize.
  assert (Hnever : forall r, below (mean_abs r) (dynamic_refine_thres self) = false).
  { intros r. rewrite (init_threshold _ _ _ _ _ _ _ _ Hinit). apply never_below_zero. }
  split; [exact Hnever|].
  rewrite forward_passes, (clean_unfold _ _ _ _ _ _ _ _ Hsize). intros Hok.
  now rewrite (cleaning_loop_no_exit _ _ _ _ _ _ _ _ _ Hnever Hok).
Qed.

(** ** What [forward] returns *)

Lemma forward_unfold self lqs return_lqs s :
  forward self lqs return_lqs s =
  match clean self lqs s with
  | (s1, inl e) => (s1, inl e)
  | (s1, inr lqs1) =>
      match load lqs1 s1 with
      | (s2, inl e) => (s2, inl e)
      | (s2, inr x) =>
          match call_basicvsr BasicVSRNet_forward self x s2 with
          | (s3, inl e) => (s3, inl e)
          | (s3, inr outputs) =>
              (s3, Ok (if return_lqs then RNone else RTensor outputs))
          end
      end
  end.
Proof.
  unfold forward, bind.
  destruct (clean self lqs s) as [s1 [e|lqs1]]; [reflexivity|].
  destruct (load lqs1 s1) as [s2 [e|x]]; [reflexivity|].
  destruct (call_basicvsr BasicVSRNet_forward self x s2) as [s3 [e|o]]; [reflexivity|].
  now destruct return_lqs.
Qed.

Lemma forward_return_lqs self lqs s :
  forward self lqs true s =
  (fst (forward self lqs false s),
   match snd (forward self lqs false s) with
   | inl e => inl e
   | inr _ => Ok RNone
   end).
Proof.
  rewrite !forward_unfold.
  destruct (clean self lqs s) as [s1 [e|lqs1]]; [reflexivity|].
  destruct (load lqs1 s1) as [s2 [e|x]]; [reflexivity|].
  destruct (call_basicvsr BasicVSRNet_forward self x s2) as [s3 [e|o]]; reflexivity.
Qed.

Lemma forward_without_flag self lqs s r :
  snd (forward self lqs false s) = Ok r -> exists outputs, r = RTensor outputs.
Proof.
  rewrite forward_unfold.
  destruct (clean self lqs s) as [s1 [e|lqs1]]; [discriminate|].
  destruct (load lqs1 s1) as [s2 [e|x]]; [discriminate|].
  destruct (call_basicvsr BasicVSRNet_forward self x s2) as [s3 [e|o]]; [discriminate|].
  simpl. intros [= <-]. eauto.
Qed.

(** ** A clip without frames *)

(** C10: under sequential cleaning a clip with no frame ([T = 0]) makes
    [forward] raise, in the first pass, the error of stacking an empty list
    of residues; so a call that returns had [T >= 1]. *)
Theorem sequential_cleaning_needs_a_frame self lqs return_lqs n t c h w s :
  is_sequential_cleaning self = true ->
  size lqs = [n; t; c; h; w] ->
  (t = 0 ->
   forward self lqs return_lqs s =
   (fst (tick s), Err (RuntimeError "stack expects a non-empty TensorList"))) /\
  (is_ok (snd (forward self lqs return_lqs s)) = true -> 1 <= t).
Proof.
  intros Hseq Hsize.
  assert (H0 : t = 0 ->
    forward self lqs return_lqs s =
    (fst (tick s), Err (RuntimeError "stack expects a non-empty TensorList"))).
  { intros ->. rewrite forward_unfold.
    rewrite (clean_unfold _ _ _ _ _ _ _ _ Hsize). simpl seq.
    rewrite cleaning_loop_step. unfold cleaning_pass. rewrite Hseq.
    reflexivity. }
  split; [exact H0|].
  destruct t as [|t]; [|lia].
  rewrite (H0 eq_refl). discriminate.
Qed.

End Loop.


(** ** Construction and weight loading *)

Section Construction.

Variable ResidualBlocksWithInputConv : nat -> nat -> nat -> list (string * tensor).
Variable Conv2d : nat -> nat -> tensor * tensor.
Variable BasicVSRNet_new : nat -> nat -> option string -> ext_result BasicVSRNet.
Variable load_checkpoint : RealBasicVSRNet -> string -> bool -> ext_result RealBasicVSRNet.

Local Abbreviation __init__ := (__init__ ResidualBlocksWithInputConv Conv2d BasicVSRNet_new).
Local Abbreviation init_weights := (init_weights load_checkpoint).

Lemma requires_grad_sets b (m : Module) p :
  p ∈ requires_grad_ b m -> requires_grad p = b.
Proof.
  unfold requires_grad_. intros H.
  apply list_elem_of_fmap in H as (q & -> & _). reflexivity.
Qed.

Lemma requires_grad_state_dict b (m : Module) :
  state_dict (requires_grad_ b m) = state_dict m.
Proof.
  unfold state_dict, requires_grad_. rewrite map_map. reflexivity.
Qed.

Lemma prefixed_trainable pre ps p : p ∈ prefixed pre ps -> requires_grad p = true.
Proof.
  unfold prefixed. intros H.
  apply list_elem_of_fmap in H as (q & -> & _). reflexivity.
Qed.

(** The cleaning module as the constructor leaves it. *)
Lemma init_image_cleaning mid npb ncb thres sp fx sq self :
  __init__ mid npb ncb thres sp fx sq = Ok self ->
  image_cleaning self =
  (if fx then requires_grad_ false else id)
    (prefixed "0." (ResidualBlocksWithInputConv 3 mid ncb)
     ++ prefixed "1." (conv_params (Conv2d mid 3))).
Proof.
  unfold __init__. destruct (propagate _) as [e|net]; [discriminate|].
  intros [= <-]. simpl. now destruct fx.
Qed.

Lemma init_spynet mid npb ncb thres sp fx sq self :
  __init__ mid npb ncb thres sp fx sq = Ok self ->
  exists m, spynet (basicvsr self) = requires_grad_ false m.
Proof.
  unfold __init__. destruct (propagate _) as [e|net]; [discriminate|].
  intros [= <-]. simpl. eauto.
Qed.

(** C8: after construction every parameter of the flow estimator is
    non-trainable, whatever [is_fix_cleaning]; the cleaning module has
    parameters, and they are all non-trainable exactly when
    [is_fix_cleaning] is set (each carries the flag's negation); and the
    cleaning module computes the same with either value of the flag. *)
Theorem construction_freezes_parameters mid npb ncb thres sp fx sq self :
  __init__ mid npb ncb thres sp fx sq = Ok self ->
  (forall p, p ∈ spynet (basicvsr self) -> requires_grad p = false) /\
  (forall p, p ∈ image_cleaning self -> requires_grad p = negb fx) /\
  image_cleaning self <> [] /\
  ((forall p, p ∈ image_cleaning self -> requires_grad p = false) <-> fx = true) /\
  (forall fx' self' F x,
     __init__ mid npb ncb thres sp fx' sq = Ok self' ->
     call_image_cleaning F self x = call_image_cleaning F self' x).
Proof.
  intros Hinit.
  pose proof (init_image_cleaning _ _ _ _ _ _ _ _ Hinit) as Hic.
  assert (Hflag : forall p, p ∈ image_cleaning self -> requires_grad p = negb fx).
  { intros p Hp. rewrite Hic in Hp. destruct fx.
    - now apply requires_grad_sets in Hp.
    - unfold id in Hp. apply elem_of_app in Hp as [Hp|Hp];
        apply prefixed_trainable in Hp; exact Hp. }
  assert (Hne : image_cleaning self <> []).
  { rewrite Hic. destruct fx; simpl.
    - unfold requires_grad_. rewrite map_app. simpl.
      intros H. apply app_eq_nil in H as [_ H]. discriminate.
    - intros H. apply app_eq_nil in H as [_ H]. discriminate. }
  repeat split.
  - destruct (init_spynet _ _ _ _ _ _ _ _ Hinit) as [m Hm].
    intros p Hp. rewrite Hm in Hp. now apply requires_grad_sets in Hp.
  - exact Hflag.
  - exact Hne.
  - intros Hall. destruct (image_cleaning self) as [|p ps] eqn:E; [now elim Hne|].
    assert (Hp : p ∈ p :: ps) by apply list_elem_of_here.
    specialize (Hflag p Hp). rewrite (Hall p Hp) in Hflag. now destruct fx.
  - intros -> p Hp. now rewrite (Hflag p Hp).
  - intros fx' self' F x Hinit'.
    unfold call_image_cleaning. rewrite Hic.
    rewrite (init_image_cleaning _ _ _ _ _ _ _ _ Hinit').
    destruct fx, fx'; simpl; now rewrite ?requires_grad_state_dict.
Qed.

(** C7: [init_weights] raises its type error, whose message names the
    type of the value received, exactly when [pretrained] is neither a
    string nor None; it raises no other type error of its own; and with
    None it returns the network as it was, without calling the loader. *)
Theorem init_weights_type_error self pretrained strict :
  (init_weights self pretrained strict
     = Err (TypeError (dquote ++ "pretrained" ++ dquote ++ " must be a str or None. "
                       ++ "But received " ++ type_repr pretrained ++ "."))
   <-> isinstance_str pretrained = false /\ is_None pretrained = false) /\
  (forall msg, init_weights self pretrained strict = Err (TypeError msg) ->
     isinstance_str pretrained = false /\ is_None pretrained = false) /\
  init_weights self PyNone strict = Ok self.
Proof.
  unfold init_weights.
  repeat split.
  - destruct (isinstance_str pretrained); [|reflexivity].
    destruct (load_checkpoint _ _ _); discriminate.
  - destruct (isinstance_str pretrained).
    + destruct (load_checkpoint _ _ _); discriminate.
    + destruct (is_None pretrained); [discriminate|reflexivity].
  - intros [-> ->]. reflexivity.
  - destruct (isinstance_str pretrained); [|reflexivity].
    destruct (load_checkpoint _ _ _); discriminate.
  - destruct (isinstance_str pretrained).
    + destruct (load_checkpoint _ _ _); discriminate.
    + destruct (is_None pretrained); [discriminate|reflexivity].
Qed.

End Construction.

Example init_weights_int :
  init_weights Demo.loader (Demo.net 255 false) (PyInt 3) true
  = Err (TypeError (dquote ++ "pretrained" ++ dquote
                    ++ " must be a str or None. But received <class 'int'>.")).
Proof. reflexivity. Qed.

Example init_weights_str :
  init_weights Demo.loader (Demo.net 255 false) (PyStr "weights.pth") true
  = Err (Propagated "No such file: weights.pth"%string).
Proof. reflexivity. Qed.

(** ** Blocks of a flat list *)

Section Chunks.

Context {A : Type}.
Implicit Types (l b : list A) (bs : list (list A)).

Lemma length_chunks k m l : length (chunks k m l) = m.
Proof. revert l. induction m as [|m IH]; intros l; simpl; [reflexivity|]. now rewrite IH. Qed.

Lemma chunks_concat k bs :
  Forall (fun b => length b = k) bs -> chunks k (length bs) (concat bs) = bs.
Proof.
  induction 1 as [|b bs Hb _ IH]; simpl; [reflexivity|].
  rewrite take_app_length', drop_app_length' by now symmetry.
  now rewrite IH.
Qed.

Lemma concat_chunks k m l : length l = m * k -> concat (chunks k m l) = l.
Proof.
  revert l. induction m as [|m IH]; intros l H; simpl.
  - destruct l; [reflexivity|discriminate].
  - rewrite IH; [apply take_drop|]. rewrite length_drop. simpl in H. lia.
Qed.

Lemma Forall_chunks k m l :
  length l = m * k -> Forall (fun b => length b = k) (chunks k m l).
Proof.
  revert l. induction m as [|m IH]; intros l H; simpl; constructor.
  - rewrite length_take. simpl in H. lia.
  - apply IH. rewrite length_drop. simpl in H. lia.
Qed.

Lemma length_concat_blocks k bs :
  Forall (fun b => length b = k) bs -> length (concat bs) = length bs * k.
Proof.
  induction 1 as [|b bs Hb _ IH]; simpl; [reflexivity|].
  rewrite length_app, IH, Hb. reflexivity.
Qed.

Lemma nth_lookup_default d bs i : nth i bs d = default d (bs !! i).
Proof.
  revert i. induction bs as [|b bs IH]; intros [|i]; simpl; try reflexivity. apply IH.
Qed.

End Chunks.

Lemma zip_with_concat {A B C} (f : A -> B -> C) (xs : list (list A)) (ys : list (list B)) :
  Forall2 (fun x y => length x = length y) xs ys ->
  zip_with f (concat xs) (concat ys) = concat (zip_with (zip_with f) xs ys).
Proof.
  induction 1 as [|x y xs ys Hxy _ IH]; simpl; [reflexivity|].
  rewrite zip_with_app by exact Hxy. now rewrite IH.
Qed.

(** ** Clips as grids *)

Lemma chunks_flat k t n g :
  grid_ok k t n g -> chunks (t * k) n (flat g) = map (fun row => concat row) g.
Proof.
  intros [Hn Hrows]. unfold flat. rewrite <- Hn, <- (length_map (fun row => concat row) g).
  apply chunks_concat. apply Forall_map. eapply Forall_impl; [exact Hrows|].
  intros row [Ht Hb]. simpl. rewrite (length_concat_blocks k) by exact Hb. now rewrite Ht.
Qed.

Lemma to_grid_flat k t n g : grid_ok k t n g -> to_grid k t n (flat g) = g.
Proof.
  intros Hg. unfold to_grid. rewrite (chunks_flat _ _ _ _ Hg), map_map.
  destruct Hg as [_ Hrows]. induction Hrows as [|row g [Ht Hb] _ IH]; simpl; [reflexivity|].
  assert (chunks k t (concat row) = row) as ->
    by (rewrite <- Ht; now apply chunks_concat).
  f_equal. exact IH.
Qed.

Lemma to_grid_ok k t n d : length d = n * (t * k) -> grid_ok k t n (to_grid k t n d).
Proof.
  intros Hd. unfold to_grid. split.
  - now rewrite length_map, length_chunks.
  - apply Forall_map. eapply Forall_impl; [apply (Forall_chunks (t * k) n d); exact Hd|].
    intros row Hrow. simpl. split; [apply length_chunks|]. now apply Forall_chunks.
Qed.

Lemma flat_to_grid k t n d : length d = n * (t * k) -> flat (to_grid k t n d) = d.
Proof.
  intros Hd. unfold flat, to_grid. rewrite map_map.
  rewrite <- (concat_chunks (t * k) n d Hd) at 2. f_equal.
  pose proof (Forall_chunks (t * k) n d Hd) as H.
  induction H as [|row rows Hrow _ IH]; simpl; [reflexivity|].
  now rewrite (concat_chunks k t row Hrow), IH.
Qed.


Lemma frames_at_ok k t n g i :
  grid_ok k t n g -> i < t ->
  length (frames_at i g) = n /\ Forall (fun b => length b = k) (frames_at i g).
Proof.
  intros [Hn Hrows] Hi. unfold frames_at. split; [now rewrite length_map|].
  apply Forall_map. eapply Forall_impl; [exact Hrows|].
  intros row [Ht Hb]. simpl.
  rewrite Forall_forall in Hb. apply Hb. apply list_elem_of_In, nth_In. lia.
Qed.

Lemma select1_grid x i n t fs g :
  shape x = n :: t :: fs -> data x = flat g -> grid_ok (numel fs) t n g -> i < t ->
  select1 x i = Ok {| shape := n :: fs; data := concat (frames_at i g) |}.
Proof.
  intros Hs Hd Hg Hi. unfold select1. rewrite Hs, Hd.
  destruct (decide (i < t)) as [_|]; [|contradiction].
  cbv zeta. do 2 f_equal. unfold frames_at.
  rewrite <- (to_grid_flat _ _ _ _ Hg) at 2. unfold to_grid. now rewrite map_map.
Qed.

Lemma iadd_rows k t i g rbs :
  Forall (fun row => length row = t /\ Forall (fun b => length b = k) row) g ->
  zip_with (fun row rb => concat (alter (fun b => add_elems b rb) i (chunks k t row)))
           (map (fun row => concat row) g) rbs
  = map (fun row => concat row)
        (zip_with (fun row rb => alter (fun b => add_elems b rb) i row) g rbs).
Proof.
  intros Hrows. revert rbs.
  induction Hrows as [|row g [Ht Hb] _ IH]; intros [|rb rbs]; simpl; try reflexivity.
  assert (chunks k t (concat row) = row) as ->
    by (rewrite <- Ht; now apply chunks_concat).
  f_equal. apply IH.
Qed.

Lemma iadd_select1_grid x i r n t fs g rbs :
  shape x = n :: t :: fs -> data x = flat g -> grid_ok (numel fs) t n g -> i < t ->
  shape r = n :: fs -> data r = concat rbs ->
  length rbs = n -> Forall (fun b => length b = numel fs) rbs ->
  iadd_select1 x i r =
  Ok {| shape := shape x;
        data := flat (zip_with (fun row rb => alter (fun b => add_elems b rb) i row) g rbs) |}.
Proof.
  intros Hs Hd Hg Hi Hr Hrd Hn Hrb. unfold iadd_select1. rewrite Hs, Hd, Hr, Hrd.
  destruct (decide (i < t)) as [_|]; [|contradiction].
  destruct (decide (n :: fs = n :: fs)) as [_|]; [|contradiction].
  cbv zeta. do 2 f_equal.
  rewrite (chunks_flat _ _ _ _ Hg). rewrite <- Hn, (chunks_concat _ _ Hrb).
  destruct Hg as [_ Hrows]. now rewrite (iadd_rows _ _ _ _ _ Hrows).
Qed.

(** ** Progress of the sequential pass *)


Section DoneUpto.

Variable G : list Q -> list Q.

Lemma done_upto_0 row : done_upto G 0 row = row.
Proof. unfold done_upto. now rewrite take_0, drop_0. Qed.

Lemma done_upto_all i row : length row <= i -> done_upto G i row = map G row.
Proof.
  intros H. unfold done_upto. rewrite take_ge, drop_ge by exact H. apply app_nil_r.
Qed.

Lemma length_done_upto i row : length (done_upto G i row) = length row.
Proof.
  unfold done_upto. rewrite length_app, length_map, length_take, length_drop. lia.
Qed.

Lemma lookup_done_upto i row : done_upto G i row !! i = row !! i.
Proof.
  unfold done_upto. destruct (decide (i < length row)) as [Hi|Hi].
  - rewrite lookup_app_r; rewrite length_map, length_take; [|lia].
    replace (i - i `min` length row) with 0 by lia.
    rewrite lookup_drop. f_equal. lia.
  - rewrite take_ge, drop_ge, app_nil_r by lia.
    rewrite !lookup_ge_None_2; [reflexivity|lia|rewrite length_map; lia].
Qed.

Lemma nth_done_upto i row : nth i (done_upto G i row) [] = nth i row [].
Proof. now rewrite !nth_lookup_default, lookup_done_upto. Qed.

Lemma alter_done_upto i row :
  i < length row -> alter G i (done_upto G i row) = done_upto G (S i) row.
Proof.
  intros Hi. unfold done_upto.
  destruct (lookup_lt_is_Some_2 row i Hi) as [b Hb].
  rewrite (take_S_r _ _ _ Hb), (drop_S _ _ _ Hb), map_app. simpl.
  rewrite <- app_assoc. simpl.
  replace i with (length (map G (take i row)) + 0) at 1
    by (rewrite length_map, length_take; lia).
  now rewrite alter_app_r.
Qed.

Lemma grid_ok_done_upto k t n g i :
  (forall b, length b = k -> length (G b) = k) ->
  grid_ok k t n g -> grid_ok k t n (map (done_upto G i) g).
Proof.
  intros HG [Hn Hrows]. split; [now rewrite length_map|].
  apply Forall_map. eapply Forall_impl; [exact Hrows|].
  intros row [Ht Hb]. simpl. split; [now rewrite length_done_upto|].
  unfold done_upto. apply Forall_app. split.
  - apply Forall_map. eapply Forall_impl; [apply Forall_take, Hb|]. intros b. apply HG.
  - apply Forall_drop, Hb.
Qed.

Lemma frames_at_done_upto i g : frames_at i (map (done_upto G i) g) = frames_at i g.
Proof.
  unfold frames_at. rewrite map_map. apply map_ext. intros row. apply nth_done_upto.
Qed.

End DoneUpto.


Lemma iadd_step f t i g :
  Forall (fun row : list (list Q) => length row = t) g -> i < t ->
  zip_with (fun row rb => alter (fun b => add_elems b rb) i row)
           (map (done_upto (cleaned_frame f) i) g) (map f (frames_at i g))
  = map (done_upto (cleaned_frame f) (S i)) g.
Proof.
  intros Hrows Hi.
  induction Hrows as [|row g Ht _ IH]; simpl; [reflexivity|].
  f_equal; [|exact IH].
  rewrite <- alter_done_upto by lia.
  apply list_alter_ext; [|reflexivity].
  intros b Hb. rewrite lookup_done_upto in Hb.
  rewrite nth_lookup_default, Hb. reflexivity.
Qed.

(** ** The two strategies on a frame-wise network *)

Section Strategies.

Variable Sequential_forward : list (string * tensor) -> tensor -> ext_result tensor.
Variable f : list nat -> list Q -> list Q.

Local Abbreviation clean_frames := (clean_frames Sequential_forward).
Local Abbreviation sequential_pass := (sequential_pass Sequential_forward).
Local Abbreviation batched_pass := (batched_pass Sequential_forward).
Local Abbreviation cleaning_pass := (cleaning_pass Sequential_forward).
Local Abbreviation cleaning_loop := (cleaning_loop Sequential_forward).
Local Abbreviation clean := (clean Sequential_forward).
Local Abbreviation frame_wise_net := (frame_wise_net Sequential_forward f).
Local Abbreviation residue_at := (residue_at f).

Lemma call_frames self n fs (bs : list (list Q)) s :
  frame_wise_net self -> image_size fs ->
  length bs = n -> Forall (fun b => length b = numel fs) bs ->
  call_image_cleaning Sequential_forward self {| shape := n :: fs; data := concat bs |} s
  = (s, Ok {| shape := n :: fs; data := concat (map (f fs) bs) |}).
Proof.
  intros [_ Hnet] Hfs Hn Hbs. unfold call_image_cleaning, lift.
  rewrite (Hnet {| shape := n :: fs; data := concat bs |} n fs Hfs eq_refl).
  - simpl. now rewrite <- Hn, (chunks_concat _ _ Hbs).
  - unfold well_formed. simpl. rewrite (length_concat_blocks _ _ Hbs). now rewrite Hn.
Qed.

Lemma length_cleaned_frame fs b :
  (forall b, length b = numel fs -> length (f fs b) = numel fs) ->
  length b = numel fs -> length (cleaned_frame (f fs) b) = numel fs.
Proof.
  intros Hf Hb. unfold cleaned_frame, add_elems.
  rewrite length_zip_with, (Hf _ Hb), Hb. lia.
Qed.

Lemma clean_frames_grid self lqs n t fs g j : forall i s residues,
  frame_wise_net self -> image_size fs ->
  size lqs = n :: t :: fs -> grid_ok (numel fs) t n g -> i + j = t ->
  mem s !! storage lqs = Some (flat (map (done_upto (cleaned_frame (f fs)) i) g)) ->
  clean_frames self lqs (seq i j) residues s =
  ({| mem := <[storage lqs := flat (map (done_upto (cleaned_frame (f fs)) t) g)]> (mem s);
      passes := passes s |},
   Ok (residues ++ map (residue_at n fs g) (seq i j))).
Proof.
  induction j as [|j IH]; intros i s residues Hfw Hfs Hsize Hg Hij Hmem.
  - simpl. unfold ret. rewrite app_nil_r. f_equal.
    replace t with i by lia. rewrite (list_insert_id _ _ _ Hmem). now destruct s.
  - assert (Hlen : forall b, length b = numel fs -> length (f fs b) = numel fs)
      by (intros b; now apply Hfw).
    assert (Hi : i < t) by lia.
    assert (HG : forall b, length b = numel fs -> length (cleaned_frame (f fs) b) = numel fs)
      by (intros b; now apply length_cleaned_frame).
    pose proof (grid_ok_done_upto _ _ _ _ _ i HG Hg) as Hgi.
    destruct (frames_at_ok _ _ _ _ i Hg Hi) as [Hfn Hfk].
    assert (Hload : load lqs s =
      (s, Ok {| shape := size lqs;
                data := flat (map (done_upto (cleaned_frame (f fs)) i) g) |})).
    { unfold load. now rewrite Hmem. }
    cbn [seq clean_frames].
    rewrite (bind_ok _ _ _ _ _ Hload).
    erewrite bind_ok; cycle 1.
    { unfold lift. f_equal.
      apply (select1_grid _ i n t fs (map (done_upto (cleaned_frame (f fs)) i) g));
        [exact Hsize|reflexivity|exact Hgi|exact Hi]. }
    rewrite frames_at_done_upto.
    erewrite bind_ok; [|now apply call_frames].
    rewrite (bind_ok _ _ _ _ _ Hload).
    erewrite bind_ok; cycle 1.
    { unfold lift. f_equal.
      apply (iadd_select1_grid _ i _ n t fs (map (done_upto (cleaned_frame (f fs)) i) g)
                               (map (f fs) (frames_at i g)));
        [exact Hsize|reflexivity|exact Hgi|exact Hi|reflexivity|reflexivity| |].
      - now rewrite length_map.
      - apply Forall_map. eapply Forall_impl; [exact Hfk|]. intros b. apply Hlen. }
    cbn [data].
    rewrite (iadd_step _ t); [|destruct Hg as [_ Hrows]; eapply Forall_impl; [exact Hrows|]; now intros row [Ht _]|exact Hi].
    erewrite bind_ok; [|reflexivity].
    rewrite (IH (S i)); [|exact Hfw|exact Hfs|exact Hsize|exact Hg|lia|].
    + cbn [mem passes]. rewrite list_insert_insert_eq, <- app_assoc. reflexivity.
    + cbn [mem]. apply list_lookup_insert_eq. eapply lookup_lt_Some, Hmem.
Qed.

End Strategies.

(** ** Sizes of views *)

Lemma no_invalid_dimension l : existsb (fun d => (d <? -1)%Z) (map Z.of_nat l) = false.
Proof.
  induction l as [|a l IH]; simpl; [reflexivity|]. rewrite IH, orb_false_r.
  apply Z.ltb_ge. lia.
Qed.

Lemma no_inferred_dimension l : filter (fun d => d = (-1)%Z) (map Z.of_nat l) = [].
Proof.
  induction l as [|a l IH]; simpl; [reflexivity|].
  rewrite filter_cons_False by lia. exact IH.
Qed.

Lemma known_dimensions l : filter (fun d => d ≠ (-1)%Z) (map Z.of_nat l) = map Z.of_nat l.
Proof.
  induction l as [|a l IH]; simpl; [reflexivity|].
  rewrite filter_cons_True by lia. now rewrite IH.
Qed.

Lemma to_nat_of_nat l : map Z.to_nat (map Z.of_nat l) = l.
Proof.
  induction l as [|a l IH]; simpl; [reflexivity|]. now rewrite Nat2Z.id, IH.
Qed.

Lemma view_size_exact s l :
  view_size s (map Z.of_nat l) =
  if decide (numel s = numel l) then Ok l
  else Err (RuntimeError "shape is invalid for input size").
Proof.
  unfold view_size, known_numel.
  rewrite no_invalid_dimension, no_inferred_dimension, known_dimensions, !to_nat_of_nat.
  reflexivity.
Qed.

Lemma inferred_of_nat (q : nat) l :
  map (fun d => if decide (d = (-1)%Z) then q else Z.to_nat d) (map Z.of_nat l) = l.
Proof.
  induction l as [|a l IH]; [reflexivity|]. cbn [map].
  destruct (decide (Z.of_nat a = (-1)%Z)) as [H|_]; [lia|].
  now rewrite Nat2Z.id, IH.
Qed.

Lemma view_size_infer s fs :
  0 < numel fs -> numel s mod numel fs = 0 ->
  view_size s ((-1)%Z :: map Z.of_nat fs) = Ok (numel s / numel fs :: fs).
Proof.
  intros Hpos Hmod. unfold view_size, known_numel.
  cbn [existsb]. rewrite no_invalid_dimension.
  rewrite (filter_cons_True (fun d => d = (-1)%Z)) by reflexivity.
  rewrite (filter_cons_False (fun d => d ≠ (-1)%Z)) by (intros H; now apply H).
  rewrite no_inferred_dimension, known_dimensions, to_nat_of_nat.
  cbn [length orb Z.ltb Z.compare].
  destruct (decide (numel fs = 0)) as [H0|_]; [lia|].
  destruct (decide (numel s mod numel fs = 0)) as [_|]; [|contradiction].
  cbn [map]. destruct (decide ((-1)%Z = (-1)%Z)) as [_|]; [|contradiction].
  now rewrite inferred_of_nat.
Qed.

Lemma map_seq_nth {A B} (F : A -> B) (l : list A) d :
  map (fun j => F (nth j l d)) (seq 0 (length l)) = map F l.
Proof.
  induction l as [|a l IH]; simpl; [reflexivity|].
  f_equal. rewrite <- seq_shift, map_map. exact IH.
Qed.

Lemma nth_map_default {A B} (F : A -> B) (l : list A) j d d' :
  j < length l -> nth j (map F l) d = F (nth j l d').
Proof.
  intros Hj. rewrite (nth_indep _ d (F d')) by now rewrite length_map.
  apply map_nth.
Qed.

Lemma concat_concat_map {A} (g : list (list (list A))) :
  concat (map (fun row => concat row) g) = concat (concat g).
Proof.
  induction g as [|row g IH]; simpl; [reflexivity|]. now rewrite concat_app, IH.
Qed.

Lemma concat_map_rows {A B} (F : A -> B) (g : list (list A)) :
  map F (concat g) = concat (map (map F) g).
Proof.
  induction g as [|row g IH]; simpl; [reflexivity|]. now rewrite map_app, IH.
Qed.


Lemma grid_blocks k t n g :
  grid_ok k t n g ->
  length (concat g) = n * t /\ Forall (fun b => length b = k) (concat g).
Proof.
  intros [Hn Hrows]. split.
  - rewrite (length_concat_blocks t); [now rewrite Hn|].
    eapply Forall_impl; [exact Hrows|]. now intros row [Ht _].
  - apply Forall_concat. eapply Forall_impl; [exact Hrows|]. now intros row [_ Hb].
Qed.

Lemma chunks_grid k t n d :
  length d = n * (t * k) -> chunks k (n * t) d = concat (to_grid k t n d).
Proof.
  intros Hd. pose proof (to_grid_ok _ _ _ _ Hd) as Hg.
  destruct (grid_blocks _ _ _ _ Hg) as [Hlen Hb].
  rewrite <- (flat_to_grid _ _ _ _ Hd) at 1. unfold flat.
  rewrite concat_concat_map, <- Hlen. now apply chunks_concat.
Qed.

Lemma length_pass_cleaned f n t fs d :
  (forall b, length b = numel fs -> length (f fs b) = numel fs) ->
  length d = n * (t * numel fs) ->
  length (pass_cleaned f n t fs d) = n * (t * numel fs).
Proof.
  intros Hf Hd. unfold pass_cleaned.
  destruct (grid_blocks _ _ _ _ (to_grid_ok _ _ _ _ Hd)) as [Hlen Hb].
  rewrite (length_concat_blocks (numel fs)).
  - rewrite length_map, Hlen. lia.
  - apply Forall_map. eapply Forall_impl; [exact Hb|].
    intros b Hk. simpl. unfold cleaned_frame, add_elems.
    rewrite length_zip_with, (Hf _ Hk), Hk. lia.
Qed.

Lemma torch_stack1_same n fs rs :
  rs <> [] -> Forall (fun r => shape r = n :: fs) rs ->
  torch_stack1 rs =
  Ok {| shape := n :: length rs :: fs;
        data := concat
          (map (fun j => concat (map (fun r => nth j (chunks (numel fs) n (data r)) []) rs))
               (seq 0 n)) |}.
Proof.
  intros Hne Hall. destruct rs as [|r0 rs]; [contradiction|].
  unfold torch_stack1.
  assert (H0 : shape r0 = n :: fs) by now inversion Hall.
  assert (Hb : forallb (fun r => bool_decide (shape r = shape r0)) (r0 :: rs) = true).
  { rewrite H0. clear Hne H0. induction Hall as [|r l Hr _ IH]; [reflexivity|].
    cbn [forallb]. now rewrite IH, bool_decide_eq_true_2. }
  now rewrite Hb, H0.
Qed.

Section Passes.

Variable Sequential_forward : list (string * tensor) -> tensor -> ext_result tensor.
Variable f : list nat -> list Q -> list Q.

Local Abbreviation sequential_pass := (sequential_pass Sequential_forward).
Local Abbreviation batched_pass := (batched_pass Sequential_forward).
Local Abbreviation frame_wise_net := (frame_wise_net Sequential_forward f).
Local Abbreviation residue_at := (residue_at f).

Lemma stack_residues n t fs g :
  (forall b, length b = numel fs -> length (f fs b) = numel fs) ->
  grid_ok (numel fs) t n g -> 1 <= t ->
  torch_stack1 (map (residue_at n fs g) (seq 0 t)) =
  Ok {| shape := n :: t :: fs; data := concat (map (f fs) (concat g)) |}.
Proof.
  intros Hf Hg Ht.
  rewrite (torch_stack1_same n fs).
  2:{ destruct t; [lia|]. discriminate. }
  2:{ apply Forall_map, Forall_forall. now intros i _. }
  rewrite length_map, length_seq.
  do 2 f_equal.
  rewrite concat_map_rows, <- concat_concat_map. f_equal.
  rewrite map_map. destruct Hg as [Hn Hrows].
  rewrite <- (map_seq_nth (fun row => concat (map (f fs) row)) g []), Hn.
  apply map_ext_in. intros j Hj. apply in_seq in Hj. f_equal.
  rewrite map_map.
  assert (Hrow : length (nth j g []) = t).
  { rewrite Forall_forall in Hrows.
    apply (Hrows (nth j g [])). apply list_elem_of_In, nth_In. lia. }
  rewrite <- (map_seq_nth (f fs) (nth j g []) []), Hrow.
  apply map_ext_in. intros i Hi. apply in_seq in Hi.
  destruct (frames_at_ok _ _ _ _ i (conj Hn Hrows) ltac:(lia)) as [Hfn Hfk].
  unfold residue_at. cbn [data].
  assert (chunks (numel fs) n (concat (map (f fs) (frames_at i g)))
          = map (f fs) (frames_at i g)) as ->.
  { replace n with (length (map (f fs) (frames_at i g))) at 1
      by now rewrite length_map.
    apply chunks_concat, Forall_map.
    eapply Forall_impl; [exact Hfk|]. intros b. apply Hf. }
  unfold frames_at. rewrite map_map.
  apply (nth_map_default (fun row => f fs (nth i row []))). lia.
Qed.

Lemma cleaned_rows fs g t :
  Forall (fun row : list (list Q) => length row = t) g ->
  flat (map (done_upto (cleaned_frame (f fs)) t) g)
  = concat (map (cleaned_frame (f fs)) (concat g)).
Proof.
  intros Hrows. unfold flat. rewrite concat_map_rows, <- concat_concat_map, !map_map.
  f_equal. induction Hrows as [|row g Ht _ IH]; simpl; [reflexivity|].
  rewrite done_upto_all by lia. now rewrite IH.
Qed.

Lemma sequential_pass_frame_wise self lqs n t fs d s :
  frame_wise_net self -> image_size fs ->
  size lqs = n :: t :: fs -> mem s !! storage lqs = Some d ->
  length d = n * (t * numel fs) -> 1 <= t ->
  sequential_pass self lqs t s =
  ({| mem := <[storage lqs := pass_cleaned f n t fs d]> (mem s); passes := passes s |},
   Ok (lqs, {| shape := n :: t :: fs; data := pass_residue f n t fs d |})).
Proof.
  intros Hfw Hfs Hsize Hmem Hd Ht.
  pose proof (to_grid_ok _ _ _ _ Hd) as Hg.
  assert (Hf : forall b, length b = numel fs -> length (f fs b) = numel fs)
    by (intros b; now apply Hfw).
  unfold sequential_pass.
  erewrite bind_ok; cycle 1.
  { apply (clean_frames_grid _ f self lqs n t fs (to_grid (numel fs) t n d) t 0 s []);
      [exact Hfw|exact Hfs|exact Hsize|exact Hg|lia|].
    rewrite Hmem. f_equal. rewrite <- (flat_to_grid _ _ _ _ Hd) at 1. f_equal.
    rewrite <- (map_id (to_grid (numel fs) t n d)) at 1.
    apply map_ext. intros row. now rewrite done_upto_0. }
  cbn [app]. erewrite bind_ok; cycle 1.
  { unfold lift. f_equal. now apply stack_residues. }
  unfold ret, pass_cleaned, pass_residue. rewrite cleaned_rows; [reflexivity|].
  destruct Hg as [_ Hrows]. eapply Forall_impl; [exact Hrows|]. now intros row [Hrow _].
Qed.

Lemma numel_cons a s : numel (a :: s) = a * numel s.
Proof. reflexivity. Qed.

Lemma batched_pass_frame_wise self lqs n t c h w d s :
  frame_wise_net self ->
  size lqs = [n; t; c; h; w] -> mem s !! storage lqs = Some d ->
  length d = n * (t * numel [c; h; w]) -> 1 <= c -> 1 <= h -> 1 <= w ->
  batched_pass self lqs n t c h w s =
  ({| mem := mem s ++ [pass_cleaned f n t [c; h; w] d]; passes := passes s |},
   Ok ({| storage := length (mem s); size := [n; t; c; h; w] |},
       {| shape := n * t :: [c; h; w]; data := pass_residue f n t [c; h; w] d |})).
Proof.
  intros Hfw Hsize Hmem Hd Hc Hh Hw.
  assert (Hfs : image_size [c; h; w]) by (exists c, h, w; auto).
  assert (Hpos : 0 < numel [c; h; w]) by (rewrite !numel_cons; simpl; nia).
  pose proof (to_grid_ok _ _ _ _ Hd) as Hg.
  destruct (grid_blocks _ _ _ _ Hg) as [Hlen Hb].
  assert (Hf : forall b, length b = numel [c; h; w] -> length (f [c; h; w] b) = numel [c; h; w])
    by (intros b; now apply Hfw).
  assert (Hnumel : numel [n; t; c; h; w] = n * t * numel [c; h; w])
    by (rewrite !numel_cons; lia).
  assert (Hcall : forall s',
    call_image_cleaning Sequential_forward self {| shape := [n * t; c; h; w]; data := d |} s'
    = (s', Ok {| shape := [n * t; c; h; w]; data := pass_residue f n t [c; h; w] d |})).
  { intros s'. unfold pass_residue. rewrite <- (chunks_grid _ _ _ _ Hd).
    rewrite <- (concat_chunks (numel [c; h; w]) (n * t) d) at 1 by lia.
    apply (call_frames _ f self (n * t) [c; h; w]).
    - exact Hfw.
    - exact Hfs.
    - apply length_chunks.
    - apply Forall_chunks. lia. }
  unfold batched_pass, view.
  change [(-1)%Z; Z.of_nat c; Z.of_nat h; Z.of_nat w] with ((-1)%Z :: map Z.of_nat [c; h; w]).
  rewrite Hsize, view_size_infer;
    [|exact Hpos|rewrite Hnumel; apply Nat.Div0.mod_mul].
  rewrite Hnumel, Nat.div_mul by lia.
  unfold lift at 1. erewrite bind_ok; [|erewrite bind_ok; reflexivity].
  erewrite bind_ok; [|unfold load; cbn [storage size]; rewrite Hmem; reflexivity].
  rewrite (bind_ok _ _ _ _ _ (Hcall s)).
  erewrite bind_ok; [|unfold lift, torch_add; cbn [shape]; rewrite decide_True by reflexivity; reflexivity].
  erewrite bind_ok; [|reflexivity].
  cbn [shape data].
  change [Z.of_nat n; Z.of_nat t; Z.of_nat c; Z.of_nat h; Z.of_nat w]
    with (map Z.of_nat [n; t; c; h; w]).
  cbn [size storage].
  rewrite view_size_exact, decide_True by (rewrite !numel_cons; lia).
  unfold lift at 1. erewrite bind_ok; [|reflexivity].
  unfold ret, pass_cleaned, pass_residue. do 4 f_equal.
  rewrite <- (flat_to_grid _ _ _ _ Hd) at 1. unfold flat, add_elems.
  rewrite concat_concat_map, zip_with_concat.
  - f_equal. rewrite zip_with_fmap_r, zip_with_diag. reflexivity.
  - apply Forall2_fmap_r, Forall_Forall2_diag. eapply Forall_impl; [exact Hb|].
    intros b Hk. simpl. now rewrite (Hf _ Hk).
Qed.

End Passes.

(** ** The two strategies clean alike *)

Lemma lookup_alloc (m : list (list Q)) d : (m ++ [d]) !! length m = Some d.
Proof. now apply list_lookup_middle. Qed.

Section Agreement.

Variable Sequential_forward : list (string * tensor) -> tensor -> ext_result tensor.
Variable f : list nat -> list Q -> list Q.

Local Abbreviation cleaning_pass := (cleaning_pass Sequential_forward).
Local Abbreviation cleaning_loop := (cleaning_loop Sequential_forward).
Local Abbreviation clean := (clean Sequential_forward).
Local Abbreviation frame_wise_net := (frame_wise_net Sequential_forward f).

Lemma loops_agree a b n t c h w iterations : forall la sa lb sb d,
  is_sequential_cleaning a = true -> is_sequential_cleaning b = false ->
  frame_wise_net a -> frame_wise_net b ->
  dynamic_refine_thres a = dynamic_refine_thres b ->
  1 <= t -> 1 <= c -> 1 <= h -> 1 <= w ->
  size la = [n; t; c; h; w] -> size lb = [n; t; c; h; w] ->
  mem sa !! storage la = Some d -> mem sb !! storage lb = Some d ->
  length d = n * (t * numel [c; h; w]) ->
  exists sa' sb' lb' d',
    cleaning_loop a n t c h w iterations la sa = (sa', Ok la) /\
    cleaning_loop b n t c h w iterations lb sb = (sb', Ok lb') /\
    size lb' = [n; t; c; h; w] /\
    mem sa' !! storage la = Some d' /\ mem sb' !! storage lb' = Some d' /\
    passes sa' + passes sb = passes sb' + passes sa.
Proof.
  induction iterations as [|i iterations IH];
    intros la sa lb sb d Ha Hb Hfa Hfb Hthres Ht Hc Hh Hw Hla Hlb Hma Hmb Hd.
  - exists sa, sb, lb, d. repeat split; try assumption. lia.
  - assert (Hfs : image_size [c; h; w]) by (exists c, h, w; auto).
    rewrite !cleaning_loop_step. unfold cleaning_pass. rewrite Ha, Hb.
    rewrite (sequential_pass_frame_wise _ f a la n t [c; h; w] d (fst (tick sa)))
      by assumption.
    rewrite (batched_pass_frame_wise _ f b lb n t c h w d (fst (tick sb)))
      by assumption.
    cbv beta iota delta [Ok].
    assert (Hmean : forall s1 s2,
      mean_abs {| shape := s1; data := pass_residue f n t [c; h; w] d |}
      = mean_abs {| shape := s2; data := pass_residue f n t [c; h; w] d |})
      by reflexivity.
    rewrite (Hmean (n * t :: [c; h; w]) (n :: t :: [c; h; w])), <- Hthres.
    assert (Hlt : storage la < length (mem sa)) by (eapply lookup_lt_Some; eassumption).
    pose proof (length_pass_cleaned f n t [c; h; w] d
                  (fun b => proj1 Hfa [c; h; w] b Hfs) Hd) as Hd'.
    destruct (below _ _).
    + eexists _, _, _, (pass_cleaned f n t [c; h; w] d).
      split; [reflexivity|]. split; [reflexivity|]. cbn.
      split; [reflexivity|].
      split; [now apply list_lookup_insert_eq|].
      split; [apply lookup_alloc|lia].
    + destruct (IH la
                  {| mem := <[storage la:=pass_cleaned f n t [c; h; w] d]> (mem sa);
                     passes := S (passes sa) |}
                  {| storage := length (mem sb); size := [n; t; c; h; w] |}
                  {| mem := mem sb ++ [pass_cleaned f n t [c; h; w] d];
                     passes := S (passes sb) |}
                  (pass_cleaned f n t [c; h; w] d)
                  Ha Hb Hfa Hfb Hthres Ht Hc Hh Hw Hla eq_refl
                  (list_lookup_insert_eq _ _ _ Hlt) (lookup_alloc _ _) Hd')
        as (sa' & sb' & lb' & d' & H1 & H2 & H3 & H4 & H5 & H6).
      exists sa', sb', lb', d'. cbn in H6.
      repeat split; try assumption. lia.
Qed.


End Agreement.

(** ** What a call changes *)


Section Frame.

Variable R : state -> state -> Prop.
Hypothesis R_mem : forall s p, R s {| mem := mem s; passes := p |}.
Hypothesis R_trans : forall s1 s2 s3, R s1 s2 -> R s2 s3 -> R s1 s3.

Lemma R_refl s : R s s.
Proof. specialize (R_mem s (passes s)). now destruct s. Qed.

Lemma within_ret {A} (a : A) : changes_within R (ret a).
Proof. intros s. apply R_refl. Qed.

Lemma within_raise {A} e : changes_within R (@raise A e).
Proof. intros s. apply R_refl. Qed.

Lemma within_lift {A} (r : result A) : changes_within R (lift r).
Proof. intros s. apply R_refl. Qed.

Lemma within_load x : changes_within R (load x).
Proof. intros s. unfold load. destruct (mem s !! storage x); apply R_refl. Qed.

Lemma within_tick : changes_within R tick.
Proof. intros s. apply R_mem. Qed.

Lemma within_bind {A B} (m : M A) (k : A -> M B) :
  changes_within R m -> (forall a, changes_within R (k a)) -> changes_within R (bind m k).
Proof.
  intros Hm Hk s. unfold bind. specialize (Hm s).
  destruct (m s) as [s1 [e|a]]; simpl in *; [exact Hm|].
  eapply R_trans; [exact Hm|apply Hk].
Qed.

Lemma within_view x sz : changes_within R (view x sz).
Proof. apply within_bind; [apply within_lift|intros; apply within_ret]. Qed.

Lemma within_size5 x : changes_within R (size5 x).
Proof.
  unfold size5.
  destruct (size x) as [|n [|t [|c [|h [|w [|]]]]]];
    first [apply within_ret | apply within_raise].
Qed.

Variable Sequential_forward : list (string * tensor) -> tensor -> ext_result tensor.
Variable BasicVSRNet_forward :
  list (string * tensor) -> list (string * tensor) -> tensor -> ext_result tensor.
Variable self : RealBasicVSRNet.

(** Whatever a pass changes within [R], so do the loop and [forward]. *)
Lemma within_cleaning_loop n t c h w (P : Tensor -> Prop) iterations :
  (forall lqs, P lqs -> changes_within R (cleaning_pass Sequential_forward self lqs n t c h w)) ->
  (forall lqs s s1 lqs1 r, P lqs ->
     cleaning_pass Sequential_forward self lqs n t c h w s = (s1, inr (lqs1, r)) -> P lqs1) ->
  forall lqs, P lqs ->
  changes_within R (cleaning_loop Sequential_forward self n t c h w iterations lqs).
Proof.
  intros Hpass HP. induction iterations as [|i iterations IH]; intros lqs Hlqs s.
  - apply R_refl.
  - rewrite cleaning_loop_step.
    pose proof (Hpass lqs Hlqs (fst (tick s))) as H1.
    pose proof (HP lqs (fst (tick s))) as H2.
    destruct (cleaning_pass Sequential_forward self lqs n t c h w _)
      as [s1 [e|[lqs1 residues]]]; simpl in H1 |- *.
    + eapply R_trans; [apply within_tick|exact H1].
    + assert (Hs1 : R s s1) by (eapply R_trans; [apply within_tick|exact H1]).
      destruct (below _ _); [exact Hs1|].
      eapply R_trans; [exact Hs1|]. apply IH. eapply H2; [exact Hlqs|reflexivity].
Qed.

Lemma within_forward (P : Tensor -> Prop) lqs return_lqs :
  (forall n t c h w lqs, P lqs ->
     changes_within R (cleaning_pass Sequential_forward self lqs n t c h w)) ->
  (forall n t c h w lqs s s1 lqs1 r, P lqs ->
     cleaning_pass Sequential_forward self lqs n t c h w s = (s1, inr (lqs1, r)) -> P lqs1) ->
  P lqs ->
  changes_within R (forward Sequential_forward BasicVSRNet_forward self lqs return_lqs).
Proof.
  intros Hpass HP Hlqs. unfold forward.
  apply within_bind.
  - unfold clean. apply within_bind; [apply within_size5|].
    intros [[[[n t] c] h] w].
    apply (within_cleaning_loop n t c h w P); [apply Hpass|apply HP|exact Hlqs].
  - intros lqs1. apply within_bind; [apply within_load|].
    intros x. apply within_bind; [apply within_lift|].
    intros o. destruct return_lqs; apply within_ret.
Qed.

End Frame.

Lemma untouched_mem s p : untouched s {| mem := mem s; passes := p |}.
Proof. exists []. simpl. now rewrite app_nil_r. Qed.

Lemma untouched_trans s1 s2 s3 : untouched s1 s2 -> untouched s2 s3 -> untouched s1 s3.
Proof.
  intros [m1 H1] [m2 H2]. exists (m1 ++ m2). now rewrite H2, H1, app_assoc.
Qed.

Lemma untouched_lookup s s' l d :
  untouched s s' -> mem s !! l = Some d -> mem s' !! l = Some d.
Proof. intros [more ->] H. now apply lookup_app_l_Some. Qed.

Lemma touches_only_mem l s p : touches_only l s {| mem := mem s; passes := p |}.
Proof. now split. Qed.

Lemma touches_only_trans l s1 s2 s3 :
  touches_only l s1 s2 -> touches_only l s2 s3 -> touches_only l s1 s3.
Proof.
  intros [L1 H1] [L2 H2]. split; [congruence|].
  intros l' Hl. now rewrite H2, H1.
Qed.

Section Effects.

Variable Sequential_forward : list (string * tensor) -> tensor -> ext_result tensor.
Variable BasicVSRNet_forward :
  list (string * tensor) -> list (string * tensor) -> tensor -> ext_result tensor.

Local Abbreviation clean_frames := (clean_frames Sequential_forward).
Local Abbreviation sequential_pass := (sequential_pass Sequential_forward).
Local Abbreviation batched_pass := (batched_pass Sequential_forward).
Local Abbreviation cleaning_pass := (cleaning_pass Sequential_forward).
Local Abbreviation cleaning_loop := (cleaning_loop Sequential_forward).
Local Abbreviation clean := (clean Sequential_forward).
Local Abbreviation forward := (forward Sequential_forward BasicVSRNet_forward).

Lemma batched_pass_untouched self lqs n t c h w :
  changes_within untouched (batched_pass self lqs n t c h w).
Proof.
  pose proof untouched_mem as Hm. pose proof untouched_trans as Ht.
  unfold batched_pass.
  apply within_bind; [assumption|now apply within_view|]. intros v.
  apply within_bind; [assumption|now apply within_load|]. intros x.
  apply within_bind; [assumption|now apply within_lift|]. intros r.
  apply within_bind; [assumption|now apply within_lift|]. intros sum.
  apply within_bind; [assumption| |].
  - intros s. exists [data sum]. reflexivity.
  - intros y. apply within_bind; [assumption|now apply within_view|].
    intros z. now apply within_ret.
Qed.

Lemma clean_frames_touches self lqs frames : forall residues,
  changes_within (touches_only (storage lqs)) (clean_frames self lqs frames residues).
Proof.
  pose proof (touches_only_mem (storage lqs)) as Hm.
  pose proof (touches_only_trans (storage lqs)) as Ht.
  induction frames as [|i frames IH]; intros residues; simpl.
  - now apply within_ret.
  - apply within_bind; [assumption|now apply within_load|]. intros cur.
    apply within_bind; [assumption|now apply within_lift|]. intros frame.
    apply within_bind; [assumption|now apply within_lift|]. intros r.
    apply within_bind; [assumption|now apply within_load|]. intros cur'.
    apply within_bind; [assumption|now apply within_lift|]. intros upd.
    apply within_bind; [assumption| |intros _; apply IH].
    intros s. split; simpl.
    + apply length_insert.
    + intros l' Hl. apply list_lookup_insert_ne. congruence.
Qed.

Lemma sequential_pass_touches self lqs t :
  changes_within (touches_only (storage lqs)) (sequential_pass self lqs t).
Proof.
  pose proof (touches_only_mem (storage lqs)) as Hm.
  pose proof (touches_only_trans (storage lqs)) as Ht.
  unfold sequential_pass.
  apply within_bind; [assumption|apply clean_frames_touches|]. intros rs.
  apply within_bind; [assumption|now apply within_lift|]. intros r.
  now apply within_ret.
Qed.

Lemma sequential_pass_handle self lqs t s s1 lqs1 r :
  sequential_pass self lqs t s = (s1, inr (lqs1, r)) -> lqs1 = lqs.
Proof.
  unfold sequential_pass. intros H.
  apply bind_inv_ok in H as (s2 & rs & _ & H).
  apply bind_inv_ok in H as (s3 & r' & _ & H).
  unfold ret, Ok in H. now inversion H.
Qed.

Lemma sequential_loop_handle self n t c h w iterations : forall lqs s s1 lqs1,
  is_sequential_cleaning self = true ->
  cleaning_loop self n t c h w iterations lqs s = (s1, inr lqs1) -> lqs1 = lqs.
Proof.
  induction iterations as [|i iterations IH]; intros lqs s s1 lqs1 Hseq.
  - simpl. unfold ret, Ok. now intros [= _ <-].
  - rewrite cleaning_loop_step. unfold cleaning_pass. rewrite Hseq.
    destruct (sequential_pass self lqs t _) as [s2 [e|[lqs2 r]]] eqn:E; [discriminate|].
    apply sequential_pass_handle in E as ->.
    destruct (below _ _).
    + unfold Ok. now intros [= _ <-].
    + now apply IH.
Qed.

Lemma forward_batched_untouched self lqs return_lqs s :
  is_sequential_cleaning self = false ->
  untouched s (fst (forward self lqs return_lqs s)).
Proof.
  intros Hb.
  apply (within_forward untouched untouched_mem untouched_trans _ _ self (fun _ => True));
    [| |exact I].
  - intros n t c h w x _. unfold cleaning_pass. rewrite Hb.
    apply batched_pass_untouched.
  - trivial.
Qed.

Lemma forward_sequential_touches self lqs return_lqs s :
  is_sequential_cleaning self = true ->
  touches_only (storage lqs) s (fst (forward self lqs return_lqs s)).
Proof.
  intros Hs.
  apply (within_forward (touches_only (storage lqs)) (touches_only_mem _)
           (touches_only_trans _) _ _ self (fun x => x = lqs)); [| |reflexivity].
  - intros n t c h w x ->. unfold cleaning_pass. rewrite Hs.
    apply sequential_pass_touches.
  - intros n t c h w x s0 s1 x1 r ->. unfold cleaning_pass. rewrite Hs.
    apply sequential_pass_handle.
Qed.

End Effects.

(** ** The result depends on the clip only *)


Lemma agree_bind {A B} (m m' : M A) (k k' : A -> M B) P Q s s' :
  agree P (m s) (m' s') ->
  (forall s1 a s1' a', P s1 a s1' a' -> agree Q (k a s1) (k' a' s1')) ->
  agree Q (bind m k s) (bind m' k' s').
Proof.
  unfold bind, agree at 1.
  destruct (m s) as [s1 [e|a]], (m' s') as [s1' [e'|a']]; simpl; intros H Hk;
    try contradiction; [exact H|now apply Hk].
Qed.


Lemma agree_lift {A} (r : result A) s s' : agree (same_value s s') (lift r s) (lift r s').
Proof. unfold lift, agree, same_value. now destruct r. Qed.

Lemma agree_load x x' s s' :
  same_clip s x s' x' -> agree (same_value s s') (load x s) (load x' s').
Proof.
  intros [Hsz Hm]. unfold load, agree, same_value. rewrite <- Hm, <- Hsz.
  now destruct (mem s !! storage x).
Qed.

Lemma agree_store x x' d s s' :
  same_clip s x s' x' ->
  agree (fun s1 _ s1' _ => same_clip s1 x s1' x') (store x d s) (store x' d s').
Proof.
  intros [Hsz Hm]. unfold store, agree, same_clip. simpl. split; [exact Hsz|].
  destruct (mem s !! storage x) as [d0|] eqn:E.
  - symmetry in Hm. apply lookup_lt_Some in E, Hm.
    now rewrite !list_lookup_insert_eq.
  - symmetry in Hm. apply lookup_ge_None in E, Hm.
    now rewrite !lookup_ge_None_2 by (rewrite length_insert; lia).
Qed.

Lemma agree_alloc v s s' :
  agree (fun s1 y s1' y' => same_clip s1 y s1' y') (alloc v s) (alloc v s').
Proof.
  unfold alloc, agree, same_clip. simpl. split; [reflexivity|].
  now rewrite !lookup_alloc.
Qed.

Lemma agree_view x x' sz s s' :
  same_clip s x s' x' ->
  agree (fun s1 y s1' y' => s1 = s /\ s1' = s' /\ same_clip s y s' y')
        (view x sz s) (view x' sz s').
Proof.
  intros [Hsz Hm]. unfold view, bind, lift, ret, agree. rewrite <- Hsz.
  destruct (view_size (size x) sz) as [e|sz']; [reflexivity|].
  repeat split. exact Hm.
Qed.

Section Determined.

Variable Sequential_forward : list (string * tensor) -> tensor -> ext_result tensor.
Variable BasicVSRNet_forward :
  list (string * tensor) -> list (string * tensor) -> tensor -> ext_result tensor.
Variable self : RealBasicVSRNet.

Local Abbreviation clean_frames := (clean_frames Sequential_forward self).
Local Abbreviation sequential_pass := (sequential_pass Sequential_forward self).
Local Abbreviation batched_pass := (batched_pass Sequential_forward self).
Local Abbreviation cleaning_pass := (cleaning_pass Sequential_forward self).
Local Abbreviation cleaning_loop := (cleaning_loop Sequential_forward self).
Local Abbreviation clean := (clean Sequential_forward self).
Local Abbreviation forward := (forward Sequential_forward BasicVSRNet_forward self).


Lemma clean_frames_same x x' frames : forall residues s s',
  same_clip s x s' x' ->
  agree (fun s1 r s1' r' => r = r' /\ same_clip s1 x s1' x')
        (clean_frames x frames residues s) (clean_frames x' frames residues s').
Proof.
  induction frames as [|i frames IH]; intros residues s s' Hsame; simpl.
  - now split.
  - eapply agree_bind; [apply agree_load, Hsame|].
    intros ? cur ? ? (-> & -> & <-).
    eapply agree_bind; [apply agree_lift|]. intros ? frame ? ? (-> & -> & <-).
    eapply agree_bind; [apply agree_lift|]. intros ? r ? ? (-> & -> & <-).
    eapply agree_bind; [apply agree_load, Hsame|].
    intros ? cur' ? ? (-> & -> & <-).
    eapply agree_bind; [apply agree_lift|]. intros ? upd ? ? (-> & -> & <-).
    eapply agree_bind; [apply agree_store, Hsame|].
    intros s1 u s1' u' H1. now apply IH.
Qed.

Lemma cleaning_pass_same x x' n t c h w s s' :
  same_clip s x s' x' ->
  agree same_pass (cleaning_pass x n t c h w s) (cleaning_pass x' n t c h w s').
Proof.
  intros Hsame. unfold cleaning_pass.
  destruct (is_sequential_cleaning self).
  - unfold sequential_pass.
    eapply agree_bind; [apply clean_frames_same, Hsame|].
    intros s1 rs s1' ? [<- H1].
    eapply agree_bind; [apply agree_lift|]. intros ? r ? ? (-> & -> & <-).
    now split.
  - unfold batched_pass.
    eapply agree_bind; [apply agree_view, Hsame|].
    intros ? v ? v' (-> & -> & Hv).
    eapply agree_bind; [apply agree_load, Hv|]. intros ? y ? ? (-> & -> & <-).
    eapply agree_bind; [apply agree_lift|]. intros ? r ? ? (-> & -> & <-).
    eapply agree_bind; [apply agree_lift|]. intros ? sum ? ? (-> & -> & <-).
    eapply agree_bind; [apply agree_alloc|]. intros s1 z s1' z' Hz.
    eapply agree_bind; [apply agree_view, Hz|]. intros ? u ? u' (-> & -> & Hu).
    now split.
Qed.

Lemma cleaning_loop_same n t c h w iterations : forall x x' s s',
  same_clip s x s' x' ->
  agree (fun s1 y s1' y' => same_clip s1 y s1' y')
        (cleaning_loop n t c h w iterations x s)
        (cleaning_loop n t c h w iterations x' s').
Proof.
  induction iterations as [|i iterations IH]; intros x x' s s' Hsame.
  - exact Hsame.
  - rewrite !cleaning_loop_step.
    pose proof (cleaning_pass_same x x' n t c h w (fst (tick s)) (fst (tick s')) Hsame) as H.
    unfold agree at 1 in H.
    destruct (cleaning_pass x n t c h w _) as [s1 [e|[y r]]],
             (cleaning_pass x' n t c h w _) as [s1' [e'|[y' r']]]; try contradiction.
    + exact H.
    + destruct H as [Hr Hy]. simpl in Hr, Hy. subst r'.
      destruct (below _ _); [exact Hy|now apply IH].
Qed.

Lemma forward_same x x' return_lqs s s' :
  same_clip s x s' x' ->
  snd (forward x return_lqs s) = snd (forward x' return_lqs s').
Proof.
  intros Hsame.
  assert (H : agree (fun _ r _ r' => r = r') (forward x return_lqs s) (forward x' return_lqs s')).
  { unfold forward.
    eapply agree_bind.
    - unfold clean, size5. pose proof Hsame as [Hsz _]. rewrite <- Hsz.
      destruct (size x) as [|n [|t [|c [|h [|w [|]]]]]]; try reflexivity.
      unfold bind, ret, Ok. cbv beta iota.
      apply cleaning_loop_same. exact Hsame.
    - intros s1 y s1' y' Hy. simpl in Hy.
      eapply agree_bind; [apply agree_load, Hy|]. intros ? v ? ? (-> & -> & <-).
      eapply agree_bind; [apply agree_lift|]. intros ? o ? ? (-> & -> & <-).
      now destruct return_lqs. }
  unfold agree in H.
  destruct (forward x return_lqs s) as [s1 [e|r]],
           (forward x' return_lqs s') as [s1' [e'|r']]; simpl; try contradiction;
    now subst.
Qed.

End Determined.

(** ** Summary of the effects, and the size of the output *)

Section Forward.

Variable Sequential_forward : list (string * tensor) -> tensor -> ext_result tensor.
Variable BasicVSRNet_forward :
  list (string * tensor) -> list (string * tensor) -> tensor -> ext_result tensor.

Local Abbreviation cleaning_pass := (cleaning_pass Sequential_forward).
Local Abbreviation cleaning_loop := (cleaning_loop Sequential_forward).
Local Abbreviation clean := (clean Sequential_forward).
Local Abbreviation forward := (forward Sequential_forward BasicVSRNet_forward).

Lemma forward_state self lqs return_lqs s :
  mem (fst (forward self lqs return_lqs s)) = mem (fst (clean self lqs s)).
Proof.
  rewrite forward_unfold.
  destruct (clean self lqs s) as [s1 [e|lqs1]]; [reflexivity|].
  unfold load. destruct (mem s1 !! storage lqs1) as [d|]; [|reflexivity].
  cbv beta iota delta [Ok]. unfold call_basicvsr, lift, propagate.
  now destruct (BasicVSRNet_forward _ _ _).
Qed.


Lemma view_exact_size y l s s1 z :
  view y (map Z.of_nat l) s = (s1, inr z) -> size z = l.
Proof.
  unfold view, bind, lift, ret, Ok. rewrite view_size_exact.
  destruct (decide _); [|discriminate]. now intros [= _ <-].
Qed.

Lemma cleaning_pass_size self lqs n t c h w s s1 lqs1 r :
  size lqs = [n; t; c; h; w] ->
  cleaning_pass self lqs n t c h w s = (s1, inr (lqs1, r)) ->
  size lqs1 = [n; t; c; h; w].
Proof.
  intros Hsize. unfold cleaning_pass.
  destruct (is_sequential_cleaning self).
  - intros H. now apply sequential_pass_handle in H as ->.
  - unfold batched_pass. intros H.
    apply bind_inv_ok in H as (s2 & v & _ & H).
    apply bind_inv_ok in H as (s3 & x & _ & H).
    apply bind_inv_ok in H as (s4 & res & _ & H).
    apply bind_inv_ok in H as (s5 & sum & _ & H).
    apply bind_inv_ok in H as (s6 & y & _ & H).
    apply bind_inv_ok in H as (s7 & z & Hview & H).
    unfold ret, Ok in H. injection H as _ <- _.
    now apply (view_exact_size y [n; t; c; h; w]) in Hview.
Qed.

Lemma cleaning_loop_size self n t c h w iterations : forall lqs s s1 lqs1,
  size lqs = [n; t; c; h; w] ->
  cleaning_loop self n t c h w iterations lqs s = (s1, inr lqs1) ->
  size lqs1 = [n; t; c; h; w].
Proof.
  induction iterations as [|i iterations IH]; intros lqs s s1 lqs1 Hsize.
  - simpl. unfold ret, Ok. now intros [= _ <-].
  - rewrite cleaning_loop_step.
    destruct (cleaning_pass self lqs n t c h w _) as [s2 [e|[lqs2 r]]] eqn:E;
      [discriminate|].
    apply (cleaning_pass_size _ _ _ _ _ _ _ _ _ _ _ Hsize) in E.
    destruct (below _ _).
    + unfold Ok. now intros [= _ <-].
    + now apply IH.
Qed.

(** C9: the clip [forward] returns has, in height and in width, four
    times the size of the cleaned clip it was computed from, which has the
    size of the input clip; batch, time and channel sizes are kept. *)
Theorem output_is_4x_the_cleaned_clip self lqs n t c h w s s' outputs :
  upscales_4x BasicVSRNet_forward ->
  size lqs = [n; t; c; h; w] ->
  forward self lqs false s = (s', Ok (RTensor outputs)) ->
  exists s1 cleaned,
    clean self lqs s = (s1, Ok cleaned) /\
    size cleaned = [n; t; c; h; w] /\
    shape outputs = [n; t; c; 4 * h; 4 * w].
Proof.
  intros Hsr Hsize. rewrite forward_unfold.
  destruct (clean self lqs s) as [s1 [e|cleaned]] eqn:Hclean; [discriminate|].
  rewrite (clean_unfold _ _ _ _ _ _ _ _ _ Hsize) in Hclean.
  apply (cleaning_loop_size _ _ _ _ _ _ _ _ _ _ _ Hsize) in Hclean as Hcleaned.
  unfold load. destruct (mem s1 !! storage cleaned) as [d|]; [|discriminate].
  cbv beta iota delta [Ok]. unfold call_basicvsr, lift, propagate.
  destruct (BasicVSRNet_forward _ _ _) as [e|o] eqn:Hcall; [discriminate|].
  simpl. unfold Ok. intros [= _ ->].
  exists s1, cleaned. repeat split; [exact Hcleaned|].
  eapply Hsr; [|exact Hcall]. exact Hcleaned.
Qed.

End Forward.

(** ** The network run on concrete clips *)

Lemma demo_frame_wise ws : frame_wise Demo.frame_fn (Demo.cleaning_net ws).
Proof.
  split.
  - intros fs b _ Hb. unfold Demo.frame_fn. now rewrite length_map.
  - intros x n fs _ Hs Hwf. unfold Demo.cleaning_net, Demo.frame_fn. do 2 f_equal.
    rewrite <- concat_map_rows, concat_chunks; [reflexivity|].
    unfold well_formed in Hwf. now rewrite Hwf, Hs.
Qed.

Lemma demo_upscales_4x : upscales_4x Demo.sr_net.
Proof.
  intros ws1 ws2 x y n t c h w Hs. unfold Demo.sr_net. rewrite Hs.
  now intros [= <-].
Qed.

(** C1 (the code does otherwise): with [return_lqs] set, [forward] runs as
    without the flag and then returns None where the call without the flag
    returns the upscaled clip; it never returns the pair.  Without the
    flag it returns the upscaled clip alone.  On the two-frame clip the
    call with the flag returns None. *)
Theorem forward_with_return_lqs_returns_None :
  (forall SF BF self lqs s,
     forward SF BF self lqs true s =
     (fst (forward SF BF self lqs false s),
      match snd (forward SF BF self lqs false s) with
      | inl e => inl e
      | inr _ => Ok RNone
      end)) /\
  (forall SF BF self lqs s r,
     snd (forward SF BF self lqs false s) = Ok r -> exists outputs, r = RTensor outputs) /\
  snd (Demo.run_forward 255 true Demo.clip true Demo.heap) = Ok RNone /\
  snd (Demo.run_forward 255 true Demo.clip false Demo.heap) = Ok (RTensor Demo.outputs).
Proof.
  split; [|split; [|split]].
  - intros. apply forward_return_lqs.
  - intros SF BF self lqs s r. apply forward_without_flag.
  - vm_compute. reflexivity.
  - vm_compute. reflexivity.
Qed.



Lemma refinement_runs_1_to_3_passes_witness :
  passes Demo.heap + 1 <= passes (fst (Demo.run_forward 255 true Demo.clip false Demo.heap))
    <= passes Demo.heap + 3.
Proof.
  exact (refinement_runs_1_to_3_passes Demo.cleaning_net Demo.sr_net (Demo.net 255 true)
           Demo.clip false 1 2 1 1 1 Demo.heap eq_refl).
Defined.


Lemma zero_threshold_runs_all_3_passes_witness :
  Demo.init 0 false true = Ok (Demo.net 0 true) /\
  passes (fst (Demo.run_forward 0 true Demo.clip false Demo.heap)) = passes Demo.heap + 3.
Proof.
  split; [reflexivity|].
  exact (proj2 (zero_threshold_runs_all_3_passes Demo.cleaning_net Demo.sr_net
                  Demo.residual_blocks Demo.conv2d Demo.basicvsr_new
                  64 20 20 None false true (Demo.net 0 true) Demo.clip false
                  1 2 1 1 1 Demo.heap eq_refl eq_refl) eq_refl).
Defined.



Lemma construction_freezes_parameters_witness :
  Demo.init 255 true false = Ok Demo.frozen_net /\
  ((forall p, p ∈ image_cleaning Demo.frozen_net -> requires_grad p = false) <-> true = true).
Proof.
  split; [reflexivity|].
  exact (proj1 (proj2 (proj2 (proj2
           (construction_freezes_parameters Demo.residual_blocks Demo.conv2d
              Demo.basicvsr_new 64 20 20 255 None true false Demo.frozen_net eq_refl))))).
Defined.

Lemma output_is_4x_the_cleaned_clip_witness :
  exists s1 cleaned,
    clean Demo.cleaning_net (Demo.net 255 true) Demo.clip Demo.heap = (s1, Ok cleaned) /\
    size cleaned = [1; 2; 1; 1; 1] /\
    shape Demo.outputs = [1; 2; 1; 4 * 1; 4 * 1].
Proof.
  eapply (output_is_4x_the_cleaned_clip Demo.cleaning_net Demo.sr_net (Demo.net 255 true)
            Demo.clip 1 2 1 1 1 Demo.heap).
  - exact demo_upscales_4x.
  - reflexivity.
  - vm_compute. reflexivity.
Defined.

Lemma sequential_cleaning_needs_a_frame_witness :
  Demo.run_forward 255 true Demo.empty_clip false Demo.empty_heap
    = (fst (tick Demo.empty_heap), Err (RuntimeError "stack expects a non-empty TensorList")).
Proof.
  exact (proj1 (sequential_cleaning_needs_a_frame Demo.cleaning_net Demo.sr_net
                  (Demo.net 255 true) Demo.empty_clip false 1 0 3 1 1 Demo.empty_heap
                  eq_refl eq_refl) eq_refl).
Defined.

(* ===================================================================== *)
(** * Further properties of the code *)
(* ===================================================================== *)

(** ** The loop in closed form *)

Section Refined.

Variable Sequential_forward : list (string * tensor) -> tensor -> ext_result tensor.
Variable f : list nat -> list Q -> list Q.

Local Abbreviation cleaning_pass := (cleaning_pass Sequential_forward).
Local Abbreviation cleaning_loop := (cleaning_loop Sequential_forward).
Local Abbreviation clean := (clean Sequential_forward).
Local Abbreviation frame_wise_net := (frame_wise_net Sequential_forward f).

(** One pass of either strategy, on a frame-wise network. *)
Lemma cleaning_pass_frame_wise self lqs n t c h w d s :
  frame_wise_net self ->
  size lqs = [n; t; c; h; w] -> mem s !! storage lqs = Some d ->
  length d = n * (t * numel [c; h; w]) ->
  (is_sequential_cleaning self = true -> 1 <= t) ->
  1 <= c -> 1 <= h -> 1 <= w ->
  exists s1 y sh,
    cleaning_pass self lqs n t c h w s
      = (s1, Ok (y, {| shape := sh; data := pass_residue f n t [c; h; w] d |})) /\
    size y = [n; t; c; h; w] /\
    mem s1 !! storage y = Some (pass_cleaned f n t [c; h; w] d) /\
    passes s1 = passes s.
Proof.
  intros Hfw Hsize Hmem Hd Ht Hc Hh Hw.
  assert (Hfs : image_size [c; h; w]) by (exists c, h, w; auto).
  unfold cleaning_pass. destruct (is_sequential_cleaning self).
  - rewrite (sequential_pass_frame_wise _ f self lqs n t [c; h; w] d s) by auto.
    eexists _, _, _. split; [reflexivity|]. split; [exact Hsize|]. split; [|reflexivity].
    cbn. apply list_lookup_insert_eq. eapply lookup_lt_Some, Hmem.
  - rewrite (batched_pass_frame_wise _ f self lqs n t c h w d s) by auto.
    eexists _, _, _. split; [reflexivity|]. split; [reflexivity|]. split; [|reflexivity].
    cbn. apply lookup_alloc.
Qed.

Lemma cleaning_loop_refined self n t c h w iterations : forall lqs s d,
  frame_wise_net self ->
  size lqs = [n; t; c; h; w] -> mem s !! storage lqs = Some d ->
  length d = n * (t * numel [c; h; w]) ->
  (is_sequential_cleaning self = true -> 1 <= t) ->
  1 <= c -> 1 <= h -> 1 <= w ->
  let R := refined f (dynamic_refine_thres self) n t [c; h; w] (length iterations) d in
  exists s' y,
    cleaning_loop self n t c h w iterations lqs s = (s', Ok y) /\
    size y = [n; t; c; h; w] /\
    mem s' !! storage y = Some (fst R) /\
    passes s' = passes s + snd R.
Proof.
  induction iterations as [|i iterations IH];
    intros lqs s d Hfw Hsize Hmem Hd Ht Hc Hh Hw.
  - exists s, lqs. cbn. repeat split; try assumption. lia.
  - assert (Hfs : image_size [c; h; w]) by (exists c, h, w; auto).
    destruct (cleaning_pass_frame_wise self lqs n t c h w d (fst (tick s))
                Hfw Hsize Hmem Hd Ht Hc Hh Hw) as (s1 & y & sh & Hpass & Hy & Hm1 & Hp1).
    cbv zeta. rewrite cleaning_loop_step, Hpass. cbv beta iota delta [Ok].
    cbn [length refined].
    change (mean_abs {| shape := sh; data := pass_residue f n t [c; h; w] d |})
      with (mean_abs {| shape := n :: t :: [c; h; w];
                        data := pass_residue f n t [c; h; w] d |}).
    destruct (below _ _).
    + exists s1, y. cbn [fst snd]. repeat split; try assumption.
      rewrite Hp1. cbn. lia.
    + pose proof (length_pass_cleaned f n t [c; h; w] d
                    (fun b => proj1 Hfw [c; h; w] b Hfs) Hd) as Hd'.
      destruct (IH y s1 _ Hfw Hy Hm1 Hd' Ht Hc Hh Hw) as (s' & y' & H1 & H2 & H3 & H4).
      exists s', y'. cbn [fst snd]. repeat split; try assumption.
      rewrite H4, Hp1. cbn. lia.
Qed.

Lemma forward_passes_clean BF self lqs return_lqs s :
  passes (fst (forward Sequential_forward BF self lqs return_lqs s))
  = passes (fst (clean self lqs s)).
Proof. apply forward_passes. Qed.


(** A pass that stops the loop at one threshold stops it at any larger. *)
Lemma below_monotone m (t1 t2 : Q) :
  (t1 <= t2)%Q -> below m t1 = true -> below m t2 = true.
Proof.
  intros Hle. destruct m as [q|]; [|discriminate]. unfold below, Qltb.
  destruct (Qle_bool t1 q) eqn:E1; [discriminate|]. intros _.
  destruct (Qle_bool t2 q) eqn:E2; [|reflexivity].
  apply Qle_bool_iff in E2. assert (H : Qle_bool t1 q = true).
  { apply Qle_bool_iff. eapply Qle_trans; eassumption. }
  congruence.
Qed.

Lemma refined_passes_bounds thres n t fs k d :
  min 1 k <= snd (refined f thres n t fs k d) <= k.
Proof.
  revert d. induction k as [|k IH]; intros d; cbn [refined]; [cbn; lia|].
  destruct (below _ _); cbn [snd]; [lia|].
  specialize (IH (pass_cleaned f n t fs d)). lia.
Qed.

Lemma refined_passes_monotone (t1 t2 : Q) n t fs k d :
  (t1 <= t2)%Q ->
  snd (refined f t2 n t fs k d) <= snd (refined f t1 n t fs k d).
Proof.
  intros Hle. revert d. induction k as [|k IH]; intros d; cbn [refined]; [lia|].
  destruct (below _ t2) eqn:E2.
  - destruct (below _ t1); cbn [snd]; lia.
  - destruct (below _ t1) eqn:E1.
    + apply (below_monotone _ _ _ Hle) in E1. congruence.
    + cbn [snd]. specialize (IH (pass_cleaned f n t fs d)). lia.
Qed.


Lemma pass_on_nothing n t fs :
  n * t = 0 -> pass_residue f n t fs [] = [] /\ pass_cleaned f n t fs [] = [].
Proof.
  intros H0.
  assert (Hd : length (@nil Q) = n * (t * numel fs)) by (cbn; nia).
  destruct (grid_blocks _ _ _ _ (to_grid_ok _ _ _ _ Hd)) as [Hlen _].
  rewrite H0 in Hlen. apply nil_length_inv in Hlen.
  unfold pass_residue, pass_cleaned. now rewrite Hlen.
Qed.

Lemma refined_nothing thres n t fs k :
  n * t = 0 -> refined f thres n t fs k [] = ([], k).
Proof.
  intros H0. destruct (pass_on_nothing n t fs H0) as [Hr Hc].
  induction k as [|k IH]; [reflexivity|].
  cbn [refined]. rewrite Hr, Hc, IH. reflexivity.
Qed.



End Refined.

(** ** When nothing is to be corrected *)

Lemma Qplus_0_r_eq (q : Q) : (q + 0)%Q = q.
Proof.
  destruct q as [a p]. unfold Qplus. cbn [Qnum Qden].
  now rewrite Z.mul_1_r, Z.add_0_r, Pos.mul_1_r.
Qed.

Lemma add_zeros (b : list Q) : add_elems b (map (fun _ => 0%Q) b) = b.
Proof.
  unfold add_elems. induction b as [|q b IH]; [reflexivity|].
  cbn. now rewrite Qplus_0_r_eq, IH.
Qed.

Lemma sumQ_abs_zeros (l : list Q) :
  Forall (fun q => q = 0%Q) l -> (sumQ (map Qabs l) == 0)%Q.
Proof.
  induction 1 as [|q l -> _ IH]; cbn; [reflexivity|].
  rewrite IH. reflexivity.
Qed.

Lemma below_zeros r thres :
  data r <> [] -> Forall (fun q => q = 0%Q) (data r) -> (0 < thres)%Q ->
  below (mean_abs r) thres = true.
Proof.
  intros Hne Hz Hpos. unfold mean_abs.
  destruct (data r) as [|q l] eqn:E; [contradiction|].
  unfold below, Qltb. apply negb_true_iff.
  destruct (Qle_bool thres _) eqn:Hle; [|reflexivity].
  apply Qle_bool_iff in Hle. rewrite (sumQ_abs_zeros (q :: l) Hz) in Hle.
  exfalso. apply (Qlt_not_le _ _ Hpos).
  eapply Qle_trans; [exact Hle|]. unfold Qdiv. rewrite Qmult_0_l. apply Qle_refl.
Qed.


Lemma length_pass_residue f n t fs d :
  (forall b, length b = numel fs -> length (f fs b) = numel fs) ->
  length d = n * (t * numel fs) ->
  length (pass_residue f n t fs d) = n * (t * numel fs).
Proof.
  intros Hf Hd. unfold pass_residue.
  destruct (grid_blocks _ _ _ _ (to_grid_ok _ _ _ _ Hd)) as [Hlen Hb].
  rewrite (length_concat_blocks (numel fs)).
  - rewrite length_map, Hlen. lia.
  - apply Forall_map. eapply Forall_impl; [exact Hb|]. intros b. apply Hf.
Qed.

Lemma pass_cleaned_no_residue n t fs d :
  length d = n * (t * numel fs) -> pass_cleaned no_residue n t fs d = d.
Proof.
  intros Hd. unfold pass_cleaned.
  rewrite (map_ext _ (fun b => b)) by (intros b; apply add_zeros).
  rewrite map_id, <- concat_concat_map. apply (flat_to_grid _ _ _ _ Hd).
Qed.

Lemma pass_residue_no_residue n t fs d :
  Forall (fun q => q = 0%Q) (pass_residue no_residue n t fs d).
Proof.
  unfold pass_residue. apply Forall_concat, Forall_map, Forall_forall.
  intros b _. unfold no_residue. apply Forall_map, Forall_forall. now intros q _.
Qed.

Lemma refined_no_residue thres n t fs k d :
  length d = n * (t * numel fs) -> d <> [] -> (0 < thres)%Q ->
  refined no_residue thres n t fs (S k) d = (d, 1).
Proof.
  intros Hd Hne Hpos. cbn [refined].
  rewrite below_zeros; [|cbn [data]|cbn [data]|exact Hpos].
  - rewrite (pass_cleaned_no_residue _ _ _ _ Hd). reflexivity.
  - intros Hnil. apply Hne. apply nil_length_inv.
    rewrite Hd, <- (length_pass_residue no_residue n t fs d); [now rewrite Hnil| |exact Hd].
    intros b Hb. unfold no_residue. now rewrite length_map.
  - apply pass_residue_no_residue.
Qed.

Section NoResidue.

Variable Sequential_forward : list (string * tensor) -> tensor -> ext_result tensor.
Variable BasicVSRNet_forward :
  list (string * tensor) -> list (string * tensor) -> tensor -> ext_result tensor.

Local Abbreviation forward := (forward Sequential_forward BasicVSRNet_forward).
Local Abbreviation clean := (clean Sequential_forward).


End NoResidue.

(** ** Errors of [forward] before and in the first pass *)

Lemma view_size_inferred s fs :
  view_size s ((-1)%Z :: map Z.of_nat fs) =
  if decide (numel fs = 0) then
    Err (RuntimeError "the unspecified dimension size -1 can be any value and is ambiguous")
  else if decide (numel s mod numel fs = 0) then Ok (numel s / numel fs :: fs)
  else Err (RuntimeError "shape is invalid for input size").
Proof.
  unfold view_size, known_numel.
  cbn [existsb]. rewrite no_invalid_dimension.
  rewrite (filter_cons_True (fun d => d = (-1)%Z)) by reflexivity.
  rewrite (filter_cons_False (fun d => d ≠ (-1)%Z)) by (intros H; now apply H).
  rewrite no_inferred_dimension, known_dimensions, to_nat_of_nat.
  cbn [length orb Z.ltb Z.compare].
  destruct (decide (numel fs = 0)) as [H0|_]; [reflexivity|].
  destruct (decide (numel s mod numel fs = 0)) as [_|]; [|reflexivity].
  cbn [map]. destruct (decide ((-1)%Z = (-1)%Z)) as [_|]; [|contradiction].
  now rewrite inferred_of_nat.
Qed.

Section Errors.

Variable Sequential_forward : list (string * tensor) -> tensor -> ext_result tensor.
Variable BasicVSRNet_forward :
  list (string * tensor) -> list (string * tensor) -> tensor -> ext_result tensor.

Local Abbreviation forward := (forward Sequential_forward BasicVSRNet_forward).
Local Abbreviation clean := (clean Sequential_forward).
Local Abbreviation cleaning_loop := (cleaning_loop Sequential_forward).
Local Abbreviation batched_pass := (batched_pass Sequential_forward).

(** X6: a tensor that does not have five dimensions makes [forward] raise at
    the unpacking of its size: no pass is started, nothing is written, no
    network is called. *)
Theorem forward_rejects_other_ranks self lqs return_lqs s :
  length (size lqs) <> 5 ->
  forward self lqs return_lqs s
  = (s, Err (ValueError "cannot unpack the size into 5 values")).
Proof.
  intros Hrank. rewrite forward_unfold. unfold clean, size5.
  destruct (size lqs) as [|n [|t [|c [|h [|w [|x rest]]]]]]; try reflexivity.
  now elim Hrank.
Qed.

(** X7: under batched cleaning a clip whose frames have no element makes
    [forward] raise in its first pass, at the view that folds time into
    the batch: the size to infer is ambiguous.  Nothing is written and the
    network is not called. *)
Theorem batched_cleaning_needs_pixels self lqs return_lqs n t c h w s :
  is_sequential_cleaning self = false ->
  size lqs = [n; t; c; h; w] ->
  c * h * w = 0 ->
  forward self lqs return_lqs s
  = (fst (tick s),
     Err (RuntimeError "the unspecified dimension size -1 can be any value and is ambiguous")).
Proof.
  intros Hb Hsize H0. rewrite forward_unfold.
  rewrite (clean_unfold _ _ _ _ _ _ _ _ _ Hsize). cbn [seq].
  rewrite cleaning_loop_step. unfold cleaning_pass. rewrite Hb.
  unfold batched_pass, view.
  change [(-1)%Z; Z.of_nat c; Z.of_nat h; Z.of_nat w] with ((-1)%Z :: map Z.of_nat [c; h; w]).
  rewrite view_size_inferred, decide_True; [reflexivity|].
  rewrite !numel_cons. cbn. nia.
Qed.

End Errors.

(** ** What a batched pass that returns has done *)

Section BatchedPass.

Variable Sequential_forward : list (string * tensor) -> tensor -> ext_result tensor.

Local Abbreviation cleaning_loop := (cleaning_loop Sequential_forward).
Local Abbreviation batched_pass := (batched_pass Sequential_forward).
Local Abbreviation clean := (clean Sequential_forward).

Lemma batched_pass_inv self lqs n t c h w s s1 y r :
  batched_pass self lqs n t c h w s = (s1, inr (y, r)) ->
  exists sh d,
    view_size (size lqs) [(-1)%Z; Z.of_nat c; Z.of_nat h; Z.of_nat w] = Ok sh /\
    mem s !! storage lqs = Some d /\
    Sequential_forward (state_dict (image_cleaning self)) {| shape := sh; data := d |} = inr r /\
    shape r = sh /\
    numel sh = numel [n; t; c; h; w] /\
    s1 = {| mem := mem s ++ [add_elems d (data r)]; passes := passes s |} /\
    y = {| storage := length (mem s); size := [n; t; c; h; w] |}.
Proof.
  unfold batched_pass, view, load, alloc, call_image_cleaning, torch_add.
  change [Z.of_nat n; Z.of_nat t; Z.of_nat c; Z.of_nat h; Z.of_nat w]
    with (map Z.of_nat [n; t; c; h; w]).
  unfold bind, lift, ret, propagate, Ok, Err.
  destruct (view_size (size lqs) _) as [e|sh] eqn:Hview; [discriminate|].
  cbn [storage size].
  destruct (mem s !! storage lqs) as [d|] eqn:Hmem; [|discriminate].
  destruct (Sequential_forward _ _) as [e|r0] eqn:Hnet; [discriminate|].
  cbn [shape data].
  destruct (decide (shape r0 = sh)) as [Hr|]; [|discriminate].
  cbn [shape data mem]. rewrite view_size_exact.
  destruct (decide (numel sh = numel [n; t; c; h; w])) as [Hn|]; [|discriminate].
  unfold Ok. intros [= <- <- <-]. exists sh, d. repeat split; try assumption; reflexivity.
Qed.

Lemma batched_loop_fresh self n t c h w iterations : forall lqs s s' y,
  is_sequential_cleaning self = false -> iterations <> [] ->
  cleaning_loop self n t c h w iterations lqs s = (s', inr y) ->
  storage lqs < length (mem s) /\ length (mem s) <= storage y < length (mem s').
Proof.
  induction iterations as [|i iterations IH]; intros lqs s s' y Hb Hne; [contradiction|].
  rewrite cleaning_loop_step. unfold cleaning_pass. rewrite Hb.
  destruct (batched_pass self lqs n t c h w _) as [s1 [e|[y1 r]]] eqn:E; [discriminate|].
  apply batched_pass_inv in E as (sh & d & _ & Hmem & _ & _ & _ & -> & ->).
  cbn [mem fst tick] in *. apply lookup_lt_Some in Hmem.
  destruct (below _ _).
  - intros [= <- <-]. cbn. rewrite length_app. cbn. lia.
  - destruct iterations as [|j iterations].
    + cbn. unfold ret, Ok. intros [= <- <-]. cbn. rewrite length_app. cbn. lia.
    + intros Hloop. apply IH in Hloop as [_ Hy]; [|exact Hb|discriminate].
      cbn in Hy. rewrite length_app in Hy. cbn in Hy. lia.
Qed.

(** X8: the clip the batched strategy cleans into is a new tensor: its
    storage did not exist before the call and so is not the caller's. *)
Theorem batched_cleaned_clip_is_fresh self lqs n t c h w s s' y :
  is_sequential_cleaning self = false ->
  size lqs = [n; t; c; h; w] ->
  clean self lqs s = (s', Ok y) ->
  length (mem s) <= storage y < length (mem s') /\ storage y <> storage lqs.
Proof.
  intros Hb Hsize. rewrite (clean_unfold _ _ _ _ _ _ _ _ _ Hsize). intros Hloop.
  apply batched_loop_fresh in Hloop as [Hl Hy]; [|exact Hb|discriminate].
  split; [exact Hy|lia].
Qed.

End BatchedPass.

(** ** Well-formed clips stay well-formed *)


Lemma select1_well_formed x i frame n t fs :
  shape x = n :: t :: fs -> length (data x) = n * (t * numel fs) ->
  select1 x i = inr frame -> well_formed frame.
Proof.
  intros Hs Hd Hsel.
  pose proof (to_grid_ok _ _ _ _ Hd) as Hg.
  assert (Hi : i < t).
  { unfold select1 in Hsel. rewrite Hs in Hsel.
    destruct (decide (i < t)); [assumption|discriminate]. }
  rewrite (select1_grid x i n t fs (to_grid (numel fs) t n (data x)) Hs) in Hsel;
    [|symmetry; now apply flat_to_grid|exact Hg|exact Hi].
  unfold Ok in Hsel. injection Hsel as <-.
  destruct (frames_at_ok _ _ _ _ i Hg Hi) as [Hn Hk].
  unfold well_formed. cbn [shape data].
  now rewrite (length_concat_blocks _ _ Hk), Hn, numel_cons.
Qed.

Lemma Forall_zip_with_both {A B C} (P : A -> Prop) (Q : B -> Prop) (R : C -> Prop)
    (g : A -> B -> C) (l : list A) (k : list B) :
  (forall x y, P x -> Q y -> R (g x y)) ->
  Forall P l -> Forall Q k -> Forall R (zip_with g l k).
Proof.
  intros Hg Hl. revert k. induction Hl as [|x l Hx _ IH]; intros k Hk; [constructor|].
  destruct Hk as [|y k Hy Hk]; cbn; constructor; auto.
Qed.

Lemma iadd_select1_length x i r upd n t fs :
  shape x = n :: t :: fs -> length (data x) = n * (t * numel fs) ->
  well_formed r -> iadd_select1 x i r = inr upd ->
  length (data upd) = n * (t * numel fs).
Proof.
  intros Hs Hd Hr. unfold iadd_select1. rewrite Hs.
  destruct (decide (i < t)) as [Hi|]; [|discriminate].
  destruct (decide (shape r = n :: fs)) as [Hsr|]; [|discriminate].
  unfold Ok. intros [= <-]. cbn [data].
  unfold well_formed in Hr. rewrite Hsr, numel_cons in Hr.
  rewrite (length_concat_blocks (t * numel fs)).
  - rewrite length_zip_with, !length_chunks. lia.
  - apply (Forall_zip_with_both (fun row => length row = t * numel fs)
                                (fun rb => length rb = numel fs)).
    + intros row rb Hrow Hrb. rewrite (length_concat_blocks (numel fs)).
      * now rewrite length_alter, length_chunks.
      * apply Forall_alter; [now apply Forall_chunks|].
        intros b _ Hb. unfold add_elems. rewrite length_zip_with. lia.
    + now apply Forall_chunks.
    + now apply Forall_chunks.
Qed.

Section WellFormed.

Variable Sequential_forward : list (string * tensor) -> tensor -> ext_result tensor.
Hypothesis net_wf : returns_well_formed Sequential_forward.

Local Abbreviation clean_frames := (clean_frames Sequential_forward).
Local Abbreviation sequential_pass := (sequential_pass Sequential_forward).
Local Abbreviation batched_pass := (batched_pass Sequential_forward).
Local Abbreviation cleaning_pass := (cleaning_pass Sequential_forward).
Local Abbreviation cleaning_loop := (cleaning_loop Sequential_forward).
Local Abbreviation clean := (clean Sequential_forward).

Lemma clean_frames_well_formed self lqs n t fs frames : forall residues s s1 rs d,
  size lqs = n :: t :: fs ->
  mem s !! storage lqs = Some d -> length d = n * (t * numel fs) ->
  clean_frames self lqs frames residues s = (s1, inr rs) ->
  exists d1, mem s1 !! storage lqs = Some d1 /\ length d1 = n * (t * numel fs).
Proof.
  induction frames as [|i frames IH]; intros residues s s1 rs d Hsize Hmem Hd.
  - cbn. unfold ret, Ok. intros [= <- _]. eauto.
  - cbn [clean_frames]. intros H.
    apply bind_inv_ok in H as (s2 & cur & Hload & H).
    unfold load in Hload. rewrite Hmem in Hload. injection Hload as <- <-.
    apply bind_inv_ok in H as (s3 & frame & Hsel & H).
    unfold lift in Hsel. injection Hsel as <- Hsel.
    apply (select1_well_formed {| shape := size lqs; data := d |} _ _ n t fs Hsize Hd)
      in Hsel.
    apply bind_inv_ok in H as (s4 & r & Hcall & H).
    unfold call_image_cleaning, lift, propagate in Hcall.
    destruct (Sequential_forward _ frame) as [e|r0] eqn:Hnet; [discriminate|].
    injection Hcall as <- <-.
    apply bind_inv_ok in H as (s5 & cur' & Hload & H).
    unfold load in Hload. rewrite Hmem in Hload. injection Hload as <- <-.
    apply bind_inv_ok in H as (s6 & upd & Hadd & H).
    unfold lift in Hadd. injection Hadd as <- Hadd.
    apply bind_inv_ok in H as (s7 & u & Hstore & H).
    unfold store, Ok in Hstore. injection Hstore as <- _.
    apply (iadd_select1_length {| shape := size lqs; data := d |} _ _ _ n t fs
             Hsize Hd (net_wf _ _ _ Hsel Hnet)) in Hadd.
    apply (IH _ _ _ _ (data upd) Hsize) in H; [exact H| |exact Hadd].
    cbn [mem]. apply list_lookup_insert_eq. eapply lookup_lt_Some, Hmem.
Qed.

Lemma cleaning_pass_well_formed self lqs n t c h w s s1 y r d :
  size lqs = [n; t; c; h; w] ->
  mem s !! storage lqs = Some d -> length d = numel [n; t; c; h; w] ->
  cleaning_pass self lqs n t c h w s = (s1, inr (y, r)) ->
  size y = [n; t; c; h; w] /\
  exists d1, mem s1 !! storage y = Some d1 /\ length d1 = numel [n; t; c; h; w].
Proof.
  intros Hsize Hmem Hd. unfold cleaning_pass.
  destruct (is_sequential_cleaning self).
  - intros H. pose proof (sequential_pass_handle _ _ _ _ _ _ _ _ H) as ->.
    split; [exact Hsize|].
    unfold sequential_pass in H.
    apply bind_inv_ok in H as (s2 & rs & Hframes & H).
    apply bind_inv_ok in H as (s3 & r' & Hstack & H).
    unfold lift in Hstack. unfold ret, Ok in H.
    injection Hstack as <- _. injection H as <- _.
    eapply (clean_frames_well_formed self lqs n t [c; h; w]); eassumption.
  - intros H. apply batched_pass_inv in H as (sh & d0 & _ & Hm & Hnet & Hr & Hn & -> & ->).
    split; [reflexivity|]. cbn [mem storage].
    rewrite Hmem in Hm. injection Hm as <-.
    exists (add_elems d (data r)). split; [apply lookup_alloc|].
    apply net_wf in Hnet; [|unfold well_formed; cbn [shape data]; congruence].
    unfold well_formed in Hnet.
    unfold add_elems. rewrite length_zip_with, Hnet, Hr, Hn. lia.
Qed.

Lemma cleaning_loop_well_formed self n t c h w iterations : forall lqs s s' y d,
  size lqs = [n; t; c; h; w] ->
  mem s !! storage lqs = Some d -> length d = numel [n; t; c; h; w] ->
  cleaning_loop self n t c h w iterations lqs s = (s', inr y) ->
  size y = [n; t; c; h; w] /\
  exists d', mem s' !! storage y = Some d' /\ length d' = numel [n; t; c; h; w].
Proof.
  induction iterations as [|i iterations IH]; intros lqs s s' y d Hsize Hmem Hd.
  - cbn. unfold ret, Ok. intros [= <- <-]. eauto.
  - rewrite cleaning_loop_step.
    destruct (cleaning_pass self lqs n t c h w _) as [s1 [e|[y1 r]]] eqn:E; [discriminate|].
    apply (cleaning_pass_well_formed _ _ _ _ _ _ _ (fst (tick s)) _ _ _ d Hsize Hmem Hd) in E
      as (Hy1 & d1 & Hm1 & Hd1).
    destruct (below _ _).
    + unfold Ok. intros [= <- <-]. eauto.
    + now apply (IH y1 s1 s' y d1).
Qed.

(** X9: if the network returns well-formed tensors, the clip that [forward]
    hands to BasicVSR has the size of the input clip and holds as many
    elements as that size says. *)
Theorem cleaned_clip_is_well_formed self lqs n t c h w s s' y d :
  size lqs = [n; t; c; h; w] ->
  mem s !! storage lqs = Some d -> length d = numel [n; t; c; h; w] ->
  clean self lqs s = (s', Ok y) ->
  exists cleaned,
    load y s' = (s', Ok cleaned) /\
    shape cleaned = [n; t; c; h; w] /\ well_formed cleaned.
Proof.
  intros Hsize Hmem Hd. rewrite (clean_unfold _ _ _ _ _ _ _ _ _ Hsize). intros Hloop.
  apply (cleaning_loop_well_formed _ _ _ _ _ _ _ _ _ _ _ d Hsize Hmem Hd) in Hloop
    as (Hy & d' & Hm & Hd').
  exists {| shape := [n; t; c; h; w]; data := d' |}.
  unfold load. rewrite Hm, Hy. repeat split. exact Hd'.
Qed.

End WellFormed.

(** ** What [forward] reads of the network *)

Lemma bind_ext {A B} (m m' : M A) (k k' : A -> M B) s :
  (forall s, m s = m' s) -> (forall a s, k a s = k' a s) -> bind m k s = bind m' k' s.
Proof.
  intros Hm Hk. unfold bind. rewrite Hm.
  destruct (m' s) as [s1 [e|a]]; [reflexivity|apply Hk].
Qed.


Section ReadsWeights.

Variable Sequential_forward : list (string * tensor) -> tensor -> ext_result tensor.
Variable BasicVSRNet_forward :
  list (string * tensor) -> list (string * tensor) -> tensor -> ext_result tensor.
Variable ResidualBlocksWithInputConv : nat -> nat -> nat -> list (string * tensor).
Variable Conv2d : nat -> nat -> tensor * tensor.
Variable BasicVSRNet_new : nat -> nat -> option string -> ext_result BasicVSRNet.

Local Abbreviation clean_frames := (clean_frames Sequential_forward).
Local Abbreviation cleaning_pass := (cleaning_pass Sequential_forward).
Local Abbreviation cleaning_loop := (cleaning_loop Sequential_forward).
Local Abbreviation clean := (clean Sequential_forward).
Local Abbreviation forward := (forward Sequential_forward BasicVSRNet_forward).
Local Abbreviation __init__ := (__init__ ResidualBlocksWithInputConv Conv2d BasicVSRNet_new).

Lemma clean_frames_ext a b lqs frames :
  same_weights a b ->
  forall residues s, clean_frames a lqs frames residues s = clean_frames b lqs frames residues s.
Proof.
  intros (Hws & _). induction frames as [|i frames IH]; intros residues s; [reflexivity|].
  cbn [clean_frames].
  apply bind_ext; [reflexivity|]. intros cur s1.
  apply bind_ext; [reflexivity|]. intros frame s2.
  apply bind_ext; [intros; unfold call_image_cleaning; now rewrite Hws|]. intros r s3.
  apply bind_ext; [reflexivity|]. intros cur' s4.
  apply bind_ext; [reflexivity|]. intros upd s5.
  apply bind_ext; [reflexivity|]. intros u s6. apply IH.
Qed.

Lemma cleaning_pass_ext a b lqs n t c h w s :
  same_weights a b ->
  cleaning_pass a lqs n t c h w s = cleaning_pass b lqs n t c h w s.
Proof.
  intros Hsame. pose proof Hsame as (Hws & _ & _ & _ & Hst).
  unfold cleaning_pass. rewrite Hst.
  destruct (is_sequential_cleaning b).
  - unfold sequential_pass.
    apply bind_ext; [intros; now apply clean_frames_ext|reflexivity].
  - unfold batched_pass.
    apply bind_ext; [reflexivity|]. intros v s1.
    apply bind_ext; [reflexivity|]. intros x s2.
    apply bind_ext; [intros; unfold call_image_cleaning; now rewrite Hws|reflexivity].
Qed.

Lemma cleaning_loop_ext a b n t c h w iterations :
  same_weights a b ->
  forall lqs s, cleaning_loop a n t c h w iterations lqs s
                = cleaning_loop b n t c h w iterations lqs s.
Proof.
  intros Hsame. pose proof Hsame as (_ & _ & _ & Hth & _).
  induction iterations as [|i iterations IH]; intros lqs s; [reflexivity|].
  rewrite !cleaning_loop_step, (cleaning_pass_ext a b _ _ _ _ _ _ _ Hsame), Hth.
  destruct (cleaning_pass b lqs n t c h w _) as [s1 [e|[y r]]]; [reflexivity|].
  destruct (below _ _); [reflexivity|apply IH].
Qed.

Lemma forward_ext a b lqs return_lqs s :
  same_weights a b -> forward a lqs return_lqs s = forward b lqs return_lqs s.
Proof.
  intros Hsame. pose proof Hsame as (_ & Hsp & Hpr & _ & _).
  rewrite !forward_unfold.
  assert (Hclean : clean a lqs s = clean b lqs s).
  { unfold clean. apply bind_ext; [reflexivity|].
    intros [[[[n t] c] h] w] s1. now apply cleaning_loop_ext. }
  rewrite Hclean. unfold call_basicvsr. now rewrite Hsp, Hpr.
Qed.

Lemma init_same_weights mid npb ncb thres sp fx fx' sq a b :
  __init__ mid npb ncb thres sp fx sq = Ok a ->
  __init__ mid npb ncb thres sp fx' sq = Ok b ->
  same_weights a b.
Proof.
  unfold __init__.
  destruct (propagate _) as [e|net]; [discriminate|].
  intros [= <-] [= <-]. unfold same_weights. cbn [image_cleaning basicvsr spynet
    propagation dynamic_refine_thres is_sequential_cleaning].
  repeat split; destruct fx, fx'; rewrite ?requires_grad_state_dict; reflexivity.
Qed.



End ReadsWeights.

(** ** The further properties on concrete clips *)

Lemma demo_quiet_frame_wise ws : frame_wise no_residue (Demo.quiet_net ws).
Proof.
  split.
  - intros fs b _ Hb. unfold no_residue. now rewrite length_map.
  - intros x n fs _ Hs Hwf. unfold Demo.quiet_net, no_residue. do 2 f_equal.
    rewrite <- concat_map_rows, concat_chunks; [reflexivity|].
    unfold well_formed in Hwf. now rewrite Hwf, Hs.
Qed.

Lemma demo_returns_well_formed : returns_well_formed Demo.cleaning_net.
Proof.
  intros ws x y Hx. unfold Demo.cleaning_net. intros [= <-].
  unfold well_formed in *. cbn [shape data]. now rewrite length_map.
Qed.






Lemma forward_rejects_other_ranks_witness :
  Demo.run_forward 255 true Demo.frame false Demo.heap
  = (Demo.heap, Err (ValueError "cannot unpack the size into 5 values")).
Proof.
  apply (forward_rejects_other_ranks Demo.cleaning_net Demo.sr_net (Demo.net 255 true)
           Demo.frame false Demo.heap).
  cbn. lia.
Defined.

Lemma batched_cleaning_needs_pixels_witness :
  Demo.run_forward 255 false Demo.blank_clip false Demo.empty_heap
  = (fst (tick Demo.empty_heap),
     Err (RuntimeError "the unspecified dimension size -1 can be any value and is ambiguous")).
Proof.
  apply (batched_cleaning_needs_pixels Demo.cleaning_net Demo.sr_net (Demo.net 255 false)
           Demo.blank_clip false 1 2 3 0 4 Demo.empty_heap); reflexivity.
Defined.

Lemma batched_cleaned_clip_is_fresh_witness :
  exists s' y,
    clean Demo.cleaning_net (Demo.net 255 false) Demo.clip Demo.heap = (s', Ok y) /\
    length (mem Demo.heap) <= storage y < length (mem s') /\
    storage y <> storage Demo.clip.
Proof.
  assert (H : clean Demo.cleaning_net (Demo.net 255 false) Demo.clip Demo.heap
              = ({| mem := [[1%Q; 3%Q]; [(1 # 2)%Q; (3 # 2)%Q]; [(2 # 8)%Q; (6 # 8)%Q]];
                    passes := 2 |},
                 Ok {| storage := 2; size := [1; 2; 1; 1; 1] |}))
    by (vm_compute; reflexivity).
  eexists _, _. split; [exact H|].
  exact (batched_cleaned_clip_is_fresh Demo.cleaning_net (Demo.net 255 false) Demo.clip
           1 2 1 1 1 Demo.heap _ _ eq_refl eq_refl H).
Defined.

Lemma cleaned_clip_is_well_formed_witness :
  exists cleaned,
    load Demo.clip {| mem := [[(2 # 8)%Q; (6 # 8)%Q]]; passes := 2 |}
      = ({| mem := [[(2 # 8)%Q; (6 # 8)%Q]]; passes := 2 |}, Ok cleaned) /\
    shape cleaned = [1; 2; 1; 1; 1] /\ well_formed cleaned.
Proof.
  apply (cleaned_clip_is_well_formed Demo.cleaning_net demo_returns_well_formed
           (Demo.net 255 true) Demo.clip 1 2 1 1 1 Demo.heap _ _ [1%Q; 3%Q]);
    first [reflexivity | vm_compute; reflexivity].
Defined.

